(** * Attachment normalization and memory context: a shallow embedding

    The development follows the TypeScript sources of the chat front end:
    - [lib/utils/file-parser.ts]  (extractTextFromPDF, extractTextFromTextFile),
    - [lib/db/memory.ts]          (saveMemory, getMemoriesByUserId,
                                   getMemoryByKey, deleteMemory,
                                   deleteAllMemories,
                                   formatMemoriesForContext,
                                   extractMemoriesFromConversation),
    - [components/multimodal-input.tsx] (submitForm: mappedParts, sendMessage),
    - [app/(chat)/api/chat/route.ts]    (processedMessageParts,
                                         processedModelMessages),
    - [app/(chat)/api/chat/schema.ts]   (textPartSchema, filePartSchema),
    - [app/(chat)/api/files/upload/route.ts] (FileSchema, POST),
    - [components/preview-attachment.tsx]    (the tile of an attachment),
    - [lib/ai/prompts.ts]               (systemPrompt).

    JavaScript strings are sequences of UTF-16 code units and are modelled as
    such ([list N]); buffers are lists of bytes; SQL [text] columns hold
    strings; exceptions are an explicit [Throw] result. *)

From Stdlib Require Import Ascii String.
From Stdlib Require Import Strings.Byte.
From Stdlib Require Import List ZArith NArith Lia Bool.
From Stdlib Require Import DecimalZ.
Import ListNotations.

Set Implicit Arguments.

(* ================================================================== *)
(** * JavaScript values shared by all the modules *)
(* ================================================================== *)

Module Js.

(** A JS string: its UTF-16 code units. *)
Definition jsstring := list N.

(** An ASCII literal of the source, as a JS string. *)
Definition lit (s : string) : jsstring :=
  map N_of_ascii (list_ascii_of_string s).

Arguments lit s%_string.

Definition LF : N := 10.
Definition CR : N := 13.

(** ["\n"] inside a template literal. *)
Definition nl : jsstring := [LF].

Fixpoint jseqb (a b : jsstring) : bool :=
  match a, b with
  | [], [] => true
  | x :: a', y :: b' => N.eqb x y && jseqb a' b'
  | _, _ => false
  end.

(** [s.startsWith(p)] *)
Fixpoint startsWith (s p : jsstring) : bool :=
  match p with
  | [] => true
  | c :: p' =>
      match s with
      | [] => false
      | d :: s' => N.eqb c d && startsWith s' p'
      end
  end.

(** [s.endsWith(p)] *)
Definition endsWith (s p : jsstring) : bool :=
  startsWith (rev s) (rev p).

(** [s.includes(sub)] *)
Fixpoint includes (s sub : jsstring) : bool :=
  if startsWith s sub then true
  else match s with
       | [] => false
       | _ :: s' => includes s' sub
       end.

(** [s.slice(0, n)] for a non-negative integer [n]. *)
Definition slice0 (s : jsstring) (n : nat) : jsstring := firstn n s.

(** White space and line terminators removed by [String.prototype.trim]. *)
Definition isTrimSpace (c : N) : bool :=
  (N.leb 9 c && N.leb c 13) || N.eqb c 32 || N.eqb c 160 || N.eqb c 5760
  || (N.leb 8192 c && N.leb c 8202) || N.eqb c 8232 || N.eqb c 8233
  || N.eqb c 8239 || N.eqb c 8287 || N.eqb c 12288 || N.eqb c 65279.

Fixpoint trimStart (s : jsstring) : jsstring :=
  match s with
  | [] => []
  | c :: s' => if isTrimSpace c then trimStart s' else s
  end.

Definition trimEnd (s : jsstring) : jsstring := rev (trimStart (rev s)).

(** [s.trim()] *)
Definition trim (s : jsstring) : jsstring := trimEnd (trimStart s).

(** Truthiness of a string: the empty string is falsy. *)
Definition truthy (s : jsstring) : bool :=
  match s with [] => false | _ :: _ => true end.

(** Truthiness of an optional string ([undefined] is falsy). *)
Definition truthy_opt (o : option jsstring) : bool :=
  match o with None => false | Some s => truthy s end.

(** Decimal digits of an unsigned decimal number. *)
Fixpoint digits (u : Decimal.uint) : jsstring :=
  match u with
  | Decimal.Nil => []
  | Decimal.D0 u' => 48%N :: digits u'
  | Decimal.D1 u' => 49%N :: digits u'
  | Decimal.D2 u' => 50%N :: digits u'
  | Decimal.D3 u' => 51%N :: digits u'
  | Decimal.D4 u' => 52%N :: digits u'
  | Decimal.D5 u' => 53%N :: digits u'
  | Decimal.D6 u' => 54%N :: digits u'
  | Decimal.D7 u' => 55%N :: digits u'
  | Decimal.D8 u' => 56%N :: digits u'
  | Decimal.D9 u' => 57%N :: digits u'
  end.

(** [n.toString()] for an integral number [n]. *)
Definition toString (n : Z) : jsstring :=
  match Z.to_int n with
  | Decimal.Pos u => digits u
  | Decimal.Neg u => 45%N :: digits u
  end.

(** The outcome of evaluating JS code that may throw. *)
Inductive Result (E A : Type) : Type :=
| Ok (a : A)
| Throw (e : E).

Arguments Ok {E A} a.
Arguments Throw {E A} e.

End Js.

Export Js.

(* ================================================================== *)
(** * lib/utils/file-parser.ts *)
(* ================================================================== *)

Module FileParser.

(** A [Buffer]. *)
Definition Buffer := list byte.

(** What [pdf-parse] resolves to (the fields the code reads). *)
Record PdfData := { text : option jsstring; numpages : N }.

(** A thrown value, seen through [error.message]. *)
Record JsError := { message : option jsstring }.

(** [new Error(msg)] *)
Definition Error (msg : jsstring) : JsError := {| message := Some msg |}.

(** [error.message?.includes(s)] used as a condition. *)
Definition message_includes (e : JsError) (s : jsstring) : bool :=
  match message e with
  | None => false
  | Some m => includes m s
  end.

Definition placeholder : jsstring :=
  lit "[This PDF appears to be empty or contains only images. No text could be extracted.]".

(** The [catch] block of [extractTextFromPDF]: the message of the error
    that is thrown again. *)
Definition errorMessage (error : JsError) : jsstring :=
  if message_includes error (lit "Invalid PDF") then
    lit "Invalid or corrupted PDF file"
  else if message_includes error (lit "password") then
    lit "PDF is password-protected"
  else if message_includes error (lit "encrypted") then
    lit "PDF is encrypted"
  else
    match message error with
    | Some m => if truthy m then lit "PDF parsing error: " ++ m
                else lit "Failed to extract text from PDF"
    | None => lit "Failed to extract text from PDF"
    end.

Section ExtractPdf.

(** The [pdf-parse] library: an external collaborator. *)
Variable pdfParse : Buffer -> Result JsError PdfData.

(** [extractTextFromPDF(buffer)]; console output is left out. *)
Definition extractTextFromPDF (buffer : Buffer) : Result JsError jsstring :=
  match pdfParse buffer with
  | Ok data =>
      match text data with
      | None => Ok placeholder
      | Some fullText =>
          if negb (truthy fullText) || (length (trim fullText) =? 0)%nat
          then Ok placeholder
          else Ok (trim fullText)
      end
  | Throw error => Throw (Error (errorMessage error))
  end.

End ExtractPdf.

(** ** [buffer.toString('utf-8')]

    Node decodes leniently: every maximal ill-formed subsequence becomes
    one U+FFFD and decoding goes on; nothing is thrown.  The decoder below
    is the WHATWG UTF-8 decoder, kept as a state machine over the bytes. *)

Definition REPLACEMENT : N := 65533.

Record DecoderState := {
  code_point : N;
  bytes_needed : nat;
  lower : N;
  upper : N
}.

Definition idle : DecoderState :=
  {| code_point := 0; bytes_needed := 0; lower := 128; upper := 191 |}.

Inductive Lead :=
| Emit (cp : N)
| Begin (st : DecoderState)
| Malformed.

(** A byte read while no sequence is open. *)
Definition lead (b : N) : Lead :=
  if N.leb b 127 then Emit b
  else if N.leb 194 b && N.leb b 223 then
    Begin {| code_point := N.land b 31; bytes_needed := 1;
             lower := 128; upper := 191 |}
  else if N.leb 224 b && N.leb b 239 then
    Begin {| code_point := N.land b 15; bytes_needed := 2;
             lower := if N.eqb b 224 then 160 else 128;
             upper := if N.eqb b 237 then 159 else 191 |}
  else if N.leb 240 b && N.leb b 244 then
    Begin {| code_point := N.land b 7; bytes_needed := 3;
             lower := if N.eqb b 240 then 144 else 128;
             upper := if N.eqb b 244 then 143 else 191 |}
  else Malformed.

Fixpoint decode (st : DecoderState) (bs : list byte) : list N :=
  match bs with
  | [] => match bytes_needed st with O => [] | S _ => [REPLACEMENT] end
  | b :: rest =>
      let v := Byte.to_N b in
      match bytes_needed st with
      | O =>
          match lead v with
          | Emit cp => cp :: decode idle rest
          | Begin st' => decode st' rest
          | Malformed => REPLACEMENT :: decode idle rest
          end
      | S k =>
          if N.leb (lower st) v && N.leb v (upper st) then
            let cp := N.lor (N.shiftl (code_point st) 6) (N.land v 63) in
            match k with
            | O => cp :: decode idle rest
            | S _ => decode {| code_point := cp; bytes_needed := k;
                               lower := 128; upper := 191 |} rest
            end
          else
            (* the byte is read again with no sequence open *)
            REPLACEMENT ::
            match lead v with
            | Emit cp => cp :: decode idle rest
            | Begin st' => decode st' rest
            | Malformed => REPLACEMENT :: decode idle rest
            end
      end
  end.

(** Code points to UTF-16 code units. *)
Definition utf16 (cp : N) : jsstring :=
  if N.ltb cp 65536 then [cp]
  else let c := (cp - 65536)%N in
       [(55296 + N.shiftr c 10)%N; (56320 + N.land c 1023)%N].

Definition Buffer_toString_utf8 (buffer : Buffer) : Result JsError jsstring :=
  Ok (flat_map utf16 (decode idle buffer)).

(** [extractTextFromTextFile(buffer)] *)
Definition extractTextFromTextFile (buffer : Buffer) : Result JsError jsstring :=
  match Buffer_toString_utf8 buffer with
  | Ok s => Ok s
  | Throw _ => Throw (Error (lit "Failed to read text file"))
  end.

(** Well-formed UTF-8 (Unicode, table 3-7), decoded strictly: the reading
    of "valid UTF-8 sequence" that the lenient decoder is compared with. *)
Definition cont (v : N) : bool := N.leb 128 v && N.leb v 191.

Fixpoint decode_strict (bs : list N) : option (list N) :=
  match bs with
  | [] => Some []
  | b0 :: r0 =>
      if N.leb b0 127 then
        option_map (cons b0) (decode_strict r0)
      else if N.leb 194 b0 && N.leb b0 223 then
        match r0 with
        | b1 :: r1 =>
            if cont b1 then
              option_map
                (cons (N.lor (N.shiftl (N.land b0 31) 6) (N.land b1 63)))
                (decode_strict r1)
            else None
        | _ => None
        end
      else if N.leb 224 b0 && N.leb b0 239 then
        match r0 with
        | b1 :: b2 :: r2 =>
            if N.leb (if N.eqb b0 224 then 160 else 128) b1
               && N.leb b1 (if N.eqb b0 237 then 159 else 191)
               && cont b2
            then
              option_map
                (cons (N.lor (N.shiftl
                         (N.lor (N.shiftl (N.land b0 15) 6) (N.land b1 63)) 6)
                         (N.land b2 63)))
                (decode_strict r2)
            else None
        | _ => None
        end
      else if N.leb 240 b0 && N.leb b0 244 then
        match r0 with
        | b1 :: b2 :: b3 :: r3 =>
            if N.leb (if N.eqb b0 240 then 144 else 128) b1
               && N.leb b1 (if N.eqb b0 244 then 143 else 191)
               && cont b2 && cont b3
            then
              option_map
                (cons (N.lor (N.shiftl
                         (N.lor (N.shiftl
                           (N.lor (N.shiftl (N.land b0 7) 6) (N.land b1 63)) 6)
                           (N.land b2 63)) 6)
                         (N.land b3 63)))
                (decode_strict r3)
            else None
        | _ => None
        end
      else None
  end.

Definition utf8_decode_strict (buffer : Buffer) : option (list N) :=
  decode_strict (map Byte.to_N buffer).

Definition utf8_valid (buffer : Buffer) : bool :=
  match utf8_decode_strict buffer with Some _ => true | None => false end.

End FileParser.

(* ================================================================== *)
(** * lib/db/memory.ts *)
(* ================================================================== *)

Module Memory.

(** [export type MemoryCategory = "preference" | "personal" | "context" | "fact"] *)
Inductive MemoryCategory := preference | personal | context | fact.

Definition category_name (c : MemoryCategory) : jsstring :=
  match c with
  | preference => lit "preference"
  | personal => lit "personal"
  | context => lit "context"
  | fact => lit "fact"
  end.

Definition category_eqb (a b : MemoryCategory) : bool :=
  match a, b with
  | preference, preference | personal, personal
  | context, context | fact, fact => true
  | _, _ => false
  end.

Definition Uuid := jsstring.

(** Milliseconds since the epoch. *)
Definition Timestamp := Z.

(** A [jsonb] value, as far as the code builds one: a flat object. *)
Definition Json := list (jsstring * jsstring).

(** Modelled from the spec: the row type [Memory] of lib/db/schema.ts is not
    among the sources.  The columns are those of migration 0008, where
    [importance] and [accessCount] are [text]; [category] keeps the type
    [MemoryCategory] that the data model and [CreateMemoryParams] give it. *)
Record Memory := {
  id : Uuid;
  userId : Uuid;
  chatId : option Uuid;
  category : MemoryCategory;
  key : jsstring;
  value : jsstring;
  importance : jsstring;
  createdAt : Timestamp;
  updatedAt : Timestamp;
  lastAccessedAt : Timestamp;
  accessCount : jsstring;
  metadata : option Json
}.

Record CreateMemoryParams := {
  p_userId : Uuid;
  p_chatId : option Uuid;
  p_category : MemoryCategory;
  p_key : jsstring;
  p_value : jsstring;
  p_importance : option Z;
  p_metadata : option Json
}.

(** The [options] argument of [getMemoriesByUserId]. *)
Record QueryOptions := {
  o_category : option MemoryCategory;
  o_limit : option Z;
  o_minImportance : option Z
}.

(** ** The world the functions run in *)

(** What the code cannot decide: whether a statement reaches the database,
    the time [new Date()] reads, the value [gen_random_uuid()] draws, and
    the rendering of [Date.prototype.toISOString]. *)
Record Env := {
  fault : nat -> bool;
  clock : nat -> Timestamp;
  uuid : nat -> Uuid;
  toISOString : Timestamp -> jsstring
}.

(** What a statement can raise: the database is out of reach; a [text]
    value is cast that is no integer, or one outside [integer]; the operand
    of [ANY] is not an array; a primary key is taken. *)
Inductive Exn :=
| ConnectionError
| InvalidInteger (s : jsstring)
| IntegerOutOfRange
| AnyOperandNotArray
| UniqueViolation.

(** A line of [console.error(msg, error)]. *)
Inductive LogEntry :=
| ConsoleError (msg : jsstring) (error : Exn).

Record World := {
  table : list Memory;
  statements : nat;
  dates : nat;
  inserts : nat;
  console : list LogEntry
}.

(** State and exceptions: an [async] function body. *)
Definition M (A : Type) : Type := World -> Result Exn A * World.

Definition ret {A} (a : A) : M A := fun w => (Ok a, w).

Definition bind {A B} (m : M A) (k : A -> M B) : M B :=
  fun w =>
    match m w with
    | (Ok a, w') => k a w'
    | (Throw e, w') => (Throw e, w')
    end.

Definition throw {A} (e : Exn) : M A := fun w => (Throw e, w).

(** [try { body } catch (error) { handler }] *)
Definition try_catch {A} (body : M A) (handler : Exn -> M A) : M A :=
  fun w =>
    match body w with
    | (Ok a, w') => (Ok a, w')
    | (Throw e, w') => handler e w'
    end.

Declare Scope js_scope.
Delimit Scope js_scope with js.
Notation "x <- m ;; k" := (bind m (fun x => k))
  (at level 100, m at next level, right associativity) : js_scope.
Notation "m ;;; k" := (bind m (fun _ => k))
  (at level 100, right associativity) : js_scope.
Open Scope js_scope.

Definition console_error (msg : jsstring) (error : Exn) : M unit :=
  fun w =>
    (Ok tt, {| table := table w; statements := statements w;
               dates := dates w; inserts := inserts w;
               console := console w ++ [ConsoleError msg error] |}).

(** ** SQL values *)

Definition isSpace (c : N) : bool :=
  N.eqb c 32 || (N.leb 9 c && N.leb c 13).

Definition isDigit (c : N) : bool := N.leb 48 c && N.leb c 57.

Fixpoint skip_spaces (s : jsstring) : jsstring :=
  match s with
  | [] => []
  | c :: s' => if isSpace c then skip_spaces s' else s
  end.

(** Digits up to the end of the input, trailing blanks allowed. *)
Fixpoint digits_value (acc : Z) (s : jsstring) : option Z :=
  match s with
  | [] => Some acc
  | c :: s' =>
      if isDigit c then digits_value (10 * acc + (Z.of_N c - 48)) s'
      else if forallb isSpace s then Some acc else None
  end.

Definition parse_int (s : jsstring) : option Z :=
  match skip_spaces s with
  | [] => None
  | c :: r =>
      if N.eqb c 45 then
        match r with
        | d :: _ => if isDigit d then option_map Z.opp (digits_value 0 r) else None
        | [] => None
        end
      else if N.eqb c 43 then
        match r with
        | d :: _ => if isDigit d then digits_value 0 r else None
        | [] => None
        end
      else if isDigit c then digits_value 0 (c :: r)
      else None
  end.

Definition int4_min : Z := - 2 ^ 31.
Definition int4_max : Z := 2 ^ 31 - 1.

Definition in_int4 (z : Z) : bool := (int4_min <=? z)%Z && (z <=? int4_max)%Z.

(** [CAST(col AS INTEGER)] on a [text] column. *)
Definition cast_integer (s : jsstring) : Result Exn Z :=
  match parse_int s with
  | None => Throw (InvalidInteger s)
  | Some z => if in_int4 z then Ok z else Throw IntegerOutOfRange
  end.

(** [CAST(col AS INTEGER) + 1], assigned to a [text] column. *)
Definition cast_plus_one (s : jsstring) : Result Exn jsstring :=
  match cast_integer s with
  | Throw e => Throw e
  | Ok z => if in_int4 (z + 1) then Ok (toString (z + 1)) else Throw IntegerOutOfRange
  end.

(** Comparison of [text] values, character by character: the order of the
    C collation, and the order every collation gives to strings of decimal
    digits. *)
Fixpoint text_compare (a b : jsstring) : comparison :=
  match a, b with
  | [], [] => Eq
  | [], _ :: _ => Lt
  | _ :: _, [] => Gt
  | x :: a', y :: b' =>
      match N.compare x y with
      | Eq => text_compare a' b'
      | c => c
      end
  end.

(** ** Conditions *)

(** [and(eq(memory.userId, userId), eq(memory.key, key))] *)
Definition same_user_key (u k : jsstring) (m : Memory) : bool :=
  jseqb (userId m) u && jseqb (key m) k.

Definition where_user_key (u k : jsstring) (m : Memory) : Result Exn bool :=
  Ok (same_user_key u k m).

(** [eq(memory.id, i)] *)
Definition has_id (i : Uuid) (m : Memory) : bool := jseqb (id m) i.

(** [sql`${memory.id} = ANY(${ids})`]: inside a [sql] template drizzle
    writes a JS array as the parenthesised list of its elements, so the
    condition reads [id = ANY(($1, $2))].  The operand of [ANY] is then no
    array, and PostgreSQL rejects the statement when it analyses it, before
    any row is read and whatever the ids are. *)
Definition any_of (ids : list Uuid) : Result Exn (Memory -> bool) :=
  Throw AnyOperandNotArray.

(** [and(eq(memory.id, id), eq(memory.userId, userId))] *)
Definition has_id_of_user (i u : Uuid) (m : Memory) : bool :=
  jseqb (id m) i && jseqb (userId m) u.

(** [eq(memory.userId, userId)] *)
Definition of_user (u : Uuid) (m : Memory) : bool := jseqb (userId m) u.

(** ** Statements *)

(** Every statement first has to reach the database. *)
Section Statements.

Variable env : Env.

Definition statement : M unit :=
  fun w =>
    let w' := {| table := table w; statements := S (statements w);
                 dates := dates w; inserts := inserts w;
                 console := console w |} in
    if fault env (statements w) then (Throw ConnectionError, w') else (Ok tt, w').

(** [new Date()] *)
Definition newDate : M Timestamp :=
  fun w =>
    (Ok (clock env (dates w)),
     {| table := table w; statements := statements w;
        dates := S (dates w); inserts := inserts w;
        console := console w |}).

Definition liftR {A} (r : Result Exn A) : M A := fun w => (r, w).

Definition getTable : M (list Memory) := fun w => (Ok (table w), w).

Definition putTable (rows : list Memory) : M unit :=
  fun w =>
    (Ok tt, {| table := rows; statements := statements w;
               dates := dates w; inserts := inserts w;
               console := console w |}).

(** The rows a [WHERE] clause keeps; a failing cast aborts the statement. *)
Fixpoint where_rows (cond : Memory -> Result Exn bool) (rows : list Memory)
  : Result Exn (list Memory) :=
  match rows with
  | [] => Ok []
  | r :: rows' =>
      match cond r with
      | Throw e => Throw e
      | Ok b =>
          match where_rows cond rows' with
          | Throw e => Throw e
          | Ok kept => Ok (if b then r :: kept else kept)
          end
      end
  end.

(** [.limit(n)]: drizzle writes the clause [LIMIT n] for a number that is not
    negative and leaves the clause out for a negative one. *)
Definition limit_rows (n : Z) (rows : list Memory) : Result Exn (list Memory) :=
  if (n <? 0)%Z then Ok rows else Ok (firstn (Z.to_nat n) rows).

(** [ORDER BY]: a stable insertion sort; [before a b] says that [a] has to
    come strictly before [b]. *)
Fixpoint insert_row (before : Memory -> Memory -> bool) (x : Memory)
  (sorted : list Memory) : list Memory :=
  match sorted with
  | [] => [x]
  | y :: sorted' =>
      if before y x then y :: insert_row before x sorted'
      else x :: y :: sorted'
  end.

Definition order_rows (before : Memory -> Memory -> bool) (rows : list Memory)
  : list Memory :=
  fold_right (insert_row before) [] rows.

(** [db.select().from(memory).where(cond).orderBy(..).limit(n)] *)
Definition db_select (cond : Memory -> Result Exn bool)
  (before : Memory -> Memory -> bool) (n : Z) : M (list Memory) :=
  statement ;;;
  rows <- getTable ;;
  kept <- liftR (where_rows cond rows) ;;
  liftR (limit_rows n (order_rows before kept)).

(** The new table and the rows a [RETURNING] clause yields. *)
Fixpoint update_rows (cond : Memory -> bool) (set : Memory -> Result Exn Memory)
  (rows : list Memory) : Result Exn (list Memory * list Memory) :=
  match rows with
  | [] => Ok ([], [])
  | r :: rows' =>
      match update_rows cond set rows' with
      | Throw e => Throw e
      | Ok (rows'', returned) =>
          if cond r then
            match set r with
            | Throw e => Throw e
            | Ok r' => Ok (r' :: rows'', r' :: returned)
            end
          else Ok (r :: rows'', returned)
      end
  end.

(** [db.update(memory).set(..).where(cond).returning()] *)
Definition db_update (cond : Memory -> bool) (set : Memory -> Result Exn Memory)
  : M (list Memory) :=
  statement ;;;
  rows <- getTable ;;
  res <- liftR (update_rows cond set rows) ;;
  putTable (fst res) ;;;
  ret (snd res).

(** [db.update(memory).set(..).where(sql`..`)]: a condition written in
    SQL, which the database has to accept before it reads a row. *)
Definition db_update_sql (cond : Result Exn (Memory -> bool))
  (set : Memory -> Result Exn Memory) : M (list Memory) :=
  statement ;;;
  accepted <- liftR cond ;;
  rows <- getTable ;;
  res <- liftR (update_rows accepted set rows) ;;
  putTable (fst res) ;;;
  ret (snd res).

Definition fresh_uuid : M Uuid :=
  fun w =>
    (Ok (uuid env (inserts w)),
     {| table := table w; statements := statements w;
        dates := dates w; inserts := S (inserts w);
        console := console w |}).

(** [db.insert(memory).values(..).returning()]: the primary key is drawn by
    the database and has to be new. *)
Definition db_insert (values : Uuid -> Memory) : M (list Memory) :=
  statement ;;;
  newId <- fresh_uuid ;;
  rows <- getTable ;;
  if existsb (has_id newId) rows then throw UniqueViolation
  else putTable (rows ++ [values newId]) ;;; ret [values newId].

(** No [ORDER BY]: every row ties and the table order is kept. *)
Definition unordered (a b : Memory) : bool := false.

(** ** saveMemory *)

(** The [set({...})] of the update branch.  Drizzle leaves out of the
    statement every key whose value is [undefined], so [metadata] is
    written when the caller passes one; [chatId] is spread in when it is
    truthy. *)
Definition update_set (params : CreateMemoryParams) (importance : Z)
  (now : Timestamp) (m : Memory) : Result Exn Memory :=
  match cast_plus_one (accessCount m) with
  | Throw e => Throw e
  | Ok count =>
      Ok {| id := id m;
            userId := userId m;
            chatId := if truthy_opt (p_chatId params) then p_chatId params
                      else chatId m;
            category := category m;
            key := key m;
            value := p_value params;
            importance := toString importance;
            createdAt := createdAt m;
            updatedAt := now;
            lastAccessedAt := now;
            accessCount := count;
            metadata := match p_metadata params with
                        | Some md => Some md
                        | None => metadata m
                        end |}
  end.

(** The [values({...})] of the insert branch. *)
Definition insert_values (params : CreateMemoryParams) (importance : Z)
  (now : Timestamp) (newId : Uuid) : Memory :=
  {| id := newId;
     userId := p_userId params;
     chatId := if truthy_opt (p_chatId params) then p_chatId params else None;
     category := p_category params;
     key := p_key params;
     value := p_value params;
     importance := toString importance;
     createdAt := now;
     updatedAt := now;
     lastAccessedAt := now;
     accessCount := lit "1";
     metadata := p_metadata params |}.

(** [saveMemory(params)]; [updated[0]] and [created[0]] are [undefined]
    on an empty array. *)
Definition saveMemory (params : CreateMemoryParams) : M (option Memory) :=
  let importance := match p_importance params with Some i => i | None => 5%Z end in
  now <- newDate ;;
  existing <- db_select (where_user_key (p_userId params) (p_key params))
                unordered 1 ;;
  match existing with
  | e :: _ =>
      updated <- db_update (has_id (id e))
                   (update_set params importance now) ;;
      ret (nth_error updated 0)
  | [] =>
      created <- db_insert (insert_values params importance now) ;;
      ret (nth_error created 0)
  end.

(** ** getMemoriesByUserId *)

(** The conjunction [and(...conditions)], read from left to right: the
    user, then the category when one is given, then the importance when
    [minImportance] is truthy. *)
Definition query_conditions (uid : Uuid) (options : option QueryOptions)
  (m : Memory) : Result Exn bool :=
  if negb (jseqb (userId m) uid) then Ok false
  else
    let category_ok :=
      match options with
      | Some {| o_category := Some c |} => category_eqb (category m) c
      | _ => true
      end in
    if negb category_ok then Ok false
    else
      match options with
      | Some {| o_minImportance := Some minImportance |} =>
          if (minImportance =? 0)%Z then Ok true
          else
            match cast_integer (importance m) with
            | Throw e => Throw e
            | Ok i => Ok (minImportance <=? i)%Z
            end
      | _ => Ok true
      end.

(** [orderBy(desc(memory.importance), desc(memory.updatedAt))]: the
    column [importance] is [text] and is compared as text. *)
Definition by_importance_then_recency (a b : Memory) : bool :=
  match text_compare (importance a) (importance b) with
  | Gt => true
  | Lt => false
  | Eq => (updatedAt b <? updatedAt a)%Z
  end.

(** [options?.limit || 50] *)
Definition limit_or_default (options : option QueryOptions) : Z :=
  match options with
  | Some {| o_limit := Some n |} => if (n =? 0)%Z then 50%Z else n
  | _ => 50%Z
  end.

(** The [set({...})] of the access bookkeeping. *)
Definition touch (now : Timestamp) (m : Memory) : Result Exn Memory :=
  match cast_plus_one (accessCount m) with
  | Throw e => Throw e
  | Ok count =>
      Ok {| id := id m; userId := userId m; chatId := chatId m;
            category := category m; key := key m; value := value m;
            importance := importance m; createdAt := createdAt m;
            updatedAt := updatedAt m;
            lastAccessedAt := now;
            accessCount := count;
            metadata := metadata m |}
  end.

Definition getMemoriesByUserId (uid : Uuid) (options : option QueryOptions)
  : M (list Memory) :=
  results <- db_select (query_conditions uid options)
               by_importance_then_recency (limit_or_default options) ;;
  match results with
  | _ :: _ =>
      let ids := map id results in
      now <- newDate ;;
      db_update_sql (any_of ids) (touch now) ;;;
      ret results
  | [] => ret results
  end.

(** ** getMemoryByKey, deleteMemory, deleteAllMemories *)

(** [db.delete(memory).where(cond)] *)
Definition db_delete (cond : Memory -> bool) : M unit :=
  statement ;;;
  rows <- getTable ;;
  putTable (filter (fun r => negb (cond r)) rows).

(** [getMemoryByKey(userId, key)]; [null] is [None]. *)
Definition getMemoryByKey (uid : Uuid) (k : jsstring) : M (option Memory) :=
  results <- db_select (where_user_key uid k) unordered 1 ;;
  match results with
  | [] => ret None
  | r :: _ =>
      now <- newDate ;;
      db_update (has_id (id r)) (touch now) ;;;
      ret (Some r)
  end.

(** [deleteMemory(id, userId)] *)
Definition deleteMemory (i : Uuid) (uid : Uuid) : M unit :=
  db_delete (has_id_of_user i uid).

(** [deleteAllMemories(userId)] *)
Definition deleteAllMemories (uid : Uuid) : M unit :=
  db_delete (of_user uid).

(** ** extractMemoriesFromConversation *)

(** Canonicalisation under the [i] flag (no [u] flag): only ASCII letters
    fold onto ASCII letters. *)
Definition canonicalize (c : N) : N :=
  if N.leb 97 c && N.leb c 122 then (c - 32)%N else c.

(** The literal [p], read ignoring case at the start of [s]: what is left. *)
Fixpoint literal_ci (p s : jsstring) : option jsstring :=
  match p with
  | [] => Some s
  | c :: p' =>
      match s with
      | [] => None
      | d :: s' => if N.eqb (canonicalize c) (canonicalize d) then literal_ci p' s' else None
      end
  end.

(** [\w] *)
Definition isWord (c : N) : bool :=
  (N.leb 48 c && N.leb c 57) || (N.leb 65 c && N.leb c 90)
  || N.eqb c 95 || (N.leb 97 c && N.leb c 122).

(** [.] matches everything but the line terminators. *)
Definition isDot (c : N) : bool :=
  negb (N.eqb c 10 || N.eqb c 13 || N.eqb c 8232 || N.eqb c 8233).

Fixpoint takeWhile (f : N -> bool) (s : jsstring) : jsstring :=
  match s with
  | [] => []
  | c :: s' => if f c then c :: takeWhile f s' else []
  end.

(** A greedy [(\w+)] or [(.+)] that ends the pattern: the capture. *)
Definition plus (f : N -> bool) (s : jsstring) : option jsstring :=
  match takeWhile f s with
  | [] => None
  | run => Some run
  end.

(** The first position, from the left, where the pattern matches. *)
Fixpoint search (at_start : jsstring -> option jsstring) (s : jsstring)
  : option jsstring :=
  match at_start s with
  | Some capture => Some capture
  | None =>
      match s with
      | [] => None
      | _ :: s' => search at_start s'
      end
  end.

Definition then_plus (f : N -> bool) (o : option jsstring) : option jsstring :=
  match o with
  | None => None
  | Some rest => plus f rest
  end.

(** [/my name is (\w+)/i] and its like: group 1 of [s.match(regex)]. *)
Definition literal_then_word (p : jsstring) (s : jsstring) : option jsstring :=
  search (fun t => then_plus isWord (literal_ci p t)) s.

(** [/I work as (?:a |an )?(.+)/i]: the alternatives of the optional
    group are tried in order, then the group is skipped. *)
Definition work_as (s : jsstring) : option jsstring :=
  search
    (fun t =>
       match literal_ci (lit "I work as ") t with
       | None => None
       | Some rest =>
           match then_plus isDot (literal_ci (lit "a ") rest) with
           | Some capture => Some capture
           | None =>
               match then_plus isDot (literal_ci (lit "an ") rest) with
               | Some capture => Some capture
               | None => plus isDot rest
               end
           end
       end) s.

Record Pattern := {
  regex : jsstring -> option jsstring;
  pattern_key : jsstring;
  pattern_category : MemoryCategory
}.

Definition patterns : list Pattern :=
  [ {| regex := literal_then_word (lit "my name is ");
       pattern_key := lit "name"; pattern_category := personal |};
    {| regex := literal_then_word (lit "I live in ");
       pattern_key := lit "location"; pattern_category := personal |};
    {| regex := work_as;
       pattern_key := lit "job"; pattern_category := personal |};
    {| regex := literal_then_word (lit "I prefer ");
       pattern_key := lit "preference"; pattern_category := preference |} ].

Record ExtractParams := {
  e_userId : Uuid;
  e_chatId : Uuid;
  userMessage : jsstring;
  aiResponse : jsstring
}.

(** The argument of the [saveMemory] call of one rule. *)
Definition rule_params (params : ExtractParams) (pattern : Pattern)
  (capture : jsstring) (stamp : Timestamp) : CreateMemoryParams :=
  {| p_userId := e_userId params;
     p_chatId := Some (e_chatId params);
     p_category := pattern_category pattern;
     p_key := pattern_key pattern;
     p_value := capture;
     p_importance := Some 7%Z;
     p_metadata := Some [ (lit "extractedFrom", lit "conversation");
                          (lit "timestamp", toISOString env stamp) ] |}.

(** The [for (const pattern of patterns)] loop, with [savedMemories]. *)
Fixpoint extract_loop (ps : list Pattern) (params : ExtractParams)
  (savedMemories : list (option Memory)) : M (list (option Memory)) :=
  match ps with
  | [] => ret savedMemories
  | pattern :: rest =>
      match regex pattern (userMessage params) with
      | Some capture =>
          if truthy capture then
            saved <- try_catch
                       (stamp <- newDate ;;
                        mem <- saveMemory (rule_params params pattern capture stamp) ;;
                        ret (savedMemories ++ [mem]))
                       (fun error =>
                          console_error (lit "Failed to save memory:") error ;;;
                          ret savedMemories) ;;
            extract_loop rest params saved
          else extract_loop rest params savedMemories
      | None => extract_loop rest params savedMemories
      end
  end.

Definition extractMemoriesFromConversation (params : ExtractParams)
  : M (list (option Memory)) :=
  extract_loop patterns params [].

End Statements.

(** ** formatMemoriesForContext *)

(** The object [grouped]: its own keys in insertion order, which is the
    order [Object.entries] lists them in. *)
Definition Grouped := list (MemoryCategory * list Memory).

(** [if (!acc[cat]) acc[cat] = []; acc[cat].push(mem)] *)
Fixpoint push_group (cat : MemoryCategory) (mem : Memory) (acc : Grouped)
  : Grouped :=
  match acc with
  | [] => [(cat, [mem])]
  | (c, items) :: acc' =>
      if category_eqb c cat then (c, items ++ [mem]) :: acc'
      else (c, items) :: push_group cat mem acc'
  end.

(** [mem.category || "context"]: a category name is never empty. *)
Definition category_or_context (m : Memory) : MemoryCategory :=
  if truthy (category_name (category m)) then category m else context.

Definition group_memories (memories : list Memory) : Grouped :=
  fold_left (fun acc mem => push_group (category_or_context mem) mem acc)
    memories [].

Definition categoryTitles (c : MemoryCategory) : jsstring :=
  match c with
  | preference => lit "Preferences"
  | personal => lit "Personal Information"
  | context => lit "Context & Background"
  | fact => lit "Known Facts"
  end.

Definition format_item (formatted : jsstring) (item : Memory) : jsstring :=
  formatted ++ lit "- " ++ key item ++ lit ": " ++ value item ++ nl.

Definition format_entry (formatted : jsstring)
  (entry : MemoryCategory * list Memory) : jsstring :=
  let formatted := formatted ++ lit "### " ++ categoryTitles (fst entry) ++ nl in
  let formatted := fold_left format_item (snd entry) formatted in
  formatted ++ nl.

Definition formatMemoriesForContext (memories : list Memory) : jsstring :=
  match memories with
  | [] => []
  | _ :: _ =>
      let grouped := group_memories memories in
      let formatted := lit "## User Memory" ++ nl ++ nl in
      trim (fold_left format_entry grouped formatted)
  end.

End Memory.

(* ================================================================== *)
(** * components/multimodal-input.tsx *)
(* ================================================================== *)

Module MultimodalInput.

(** An uploaded attachment, as the upload handler stores it. *)
Record Attachment := {
  url : jsstring;
  name : jsstring;
  contentType : jsstring;
  extractedText : option jsstring
}.

(** A part of the message handed to [sendMessage]. *)
Inductive Part :=
| TextPart (text : jsstring)
| FilePart (url name mediaType : jsstring).

Record UserMessage := {
  role : jsstring;
  parts : list Part
}.

(** [array.filter((part) => part !== undefined)] *)
Fixpoint filter_defined {A} (l : list (option A)) : list A :=
  match l with
  | [] => []
  | Some a :: l' => a :: filter_defined l'
  | None :: l' => filter_defined l'
  end.

(** [attachment.extractedText || ""] *)
Definition text_or_empty (a : Attachment) : jsstring :=
  match extractedText a with
  | Some t => t
  | None => []
  end.

Definition is_document (a : Attachment) : bool :=
  jseqb (contentType a) (lit "application/pdf")
  || jseqb (contentType a) (lit "text/plain").

(** The rendering of a document part: the template literal of the source. *)
Definition document_text (a : Attachment) : jsstring :=
  lit "[File: " ++ name a ++ lit "]" ++ nl ++ nl
  ++ slice0 (text_or_empty a) 2000.

Section SubmitForm.

(** The branch for images, which the source leaves out; a callback that
    returns nothing stands for [undefined]. *)
Variable imageHandling : Attachment -> option Part.

(** The callback of [attachments.map]. *)
Definition mapAttachment (attachment : Attachment) : option Part :=
  if is_document attachment then Some (TextPart (document_text attachment))
  else imageHandling attachment.

Definition mappedParts (attachments : list Attachment) : list Part :=
  filter_defined (map mapAttachment attachments).

(** The argument of [sendMessage] in [submitForm]; [input || ""] is
    [input]. *)
Definition submitForm (attachments : list Attachment) (input : jsstring)
  : UserMessage :=
  {| role := lit "user";
     parts := mappedParts attachments ++ [TextPart input] |}.

End SubmitForm.

(** Images travel as file parts that carry the data URL. *)
Definition imageAsFile (a : Attachment) : option Part :=
  if startsWith (contentType a) (lit "image") then
    Some (FilePart (url a) (name a) (contentType a))
  else None.

End MultimodalInput.

(* ================================================================== *)
(** * app/(chat)/api/chat/route.ts: the pass over the model messages *)
(* ================================================================== *)

Module ChatRoute.

(** A content part of a model message, after [convertToModelMessages]. *)
Inductive ModelPart :=
| MText (text : jsstring)
| MFile (data : option jsstring) (mediaType : jsstring) (filename : option jsstring)
| MImage (image : jsstring)
| MOther (type : jsstring).

Inductive Content :=
| ContentString (s : jsstring)
| ContentParts (parts : list ModelPart).

Record ModelMessage := {
  role : jsstring;
  content : Content
}.

(** [part.type === "file" && part.data?.startsWith("data:image/")] *)
Definition is_inline_image_file (part : ModelPart) : bool :=
  match part with
  | MFile (Some data) _ _ => startsWith data (lit "data:image/")
  | _ => false
  end.

(** The callback of [msg.content.map]. *)
Definition processPart (part : ModelPart) : ModelPart :=
  match part with
  | MFile (Some data) _ _ =>
      if startsWith data (lit "data:image/") then MImage data else part
  | _ => part
  end.

Definition processMessage (msg : ModelMessage) : ModelMessage :=
  match content msg with
  | ContentParts ps =>
      {| role := role msg; content := ContentParts (map processPart ps) |}
  | ContentString _ => msg
  end.

Definition processedModelMessages (modelMessages : list ModelMessage)
  : list ModelMessage :=
  map processMessage modelMessages.

(** A part that still refers to an image kept elsewhere. *)
Definition is_referenced_image (part : ModelPart) : bool :=
  match part with
  | MFile data mediaType _ =>
      startsWith mediaType (lit "image/") && negb (is_inline_image_file part)
  | _ => false
  end.

(** ** The pass over the parts of the incoming message *)

(** A part of the message the route receives. *)
Inductive UiPart :=
| UiText (text : jsstring)
| UiFile (url name mediaType : jsstring) (extractedText : option jsstring).

(** The callback of [message.parts.map]:
    [part.type === "file" && part.extractedText] turns into a text part. *)
Definition processMessagePart (part : UiPart) : UiPart :=
  match part with
  | UiFile _ name _ (Some extracted) =>
      if truthy extracted then
        UiText (lit "[File: " ++ name ++ lit "]" ++ nl ++ nl ++ extracted)
      else part
  | _ => part
  end.

Definition processedMessageParts (parts : list UiPart) : list UiPart :=
  map processMessagePart parts.

(** The parts [submitForm] sends, as the route receives them: a file part
    of the client carries no extracted text. *)
Definition received (part : MultimodalInput.Part) : UiPart :=
  match part with
  | MultimodalInput.TextPart text => UiText text
  | MultimodalInput.FilePart url name mediaType => UiFile url name mediaType None
  end.

End ChatRoute.

(* ================================================================== *)
(** * lib/ai/prompts.ts *)
(* ================================================================== *)

Module Prompts.

(** [systemPrompt({ ..., userMemories })]: [basePrompt] stands for the
    template [`${regularPrompt}\n\n${requestPrompt}`], whose two texts are
    not among the sources. *)
Definition systemPrompt (basePrompt : jsstring) (userMemories : option jsstring)
  : jsstring :=
  if truthy_opt userMemories then
    basePrompt ++ nl ++ nl
    ++ match userMemories with Some m => m | None => [] end
  else basePrompt.

End Prompts.

(* ================================================================== *)
(** * components/preview-attachment.tsx *)
(* ================================================================== *)

Module PreviewAttachment.

(** What the preview tile shows. *)
Inductive Tile := ImageTile | PdfTile | TxtTile | FileTile.

(** The conditional chain on [contentType]. *)
Definition tile (contentType : option jsstring) : Tile :=
  match contentType with
  | None => FileTile
  | Some ct =>
      if startsWith ct (lit "image") then ImageTile
      else if jseqb ct (lit "application/pdf") then PdfTile
      else if jseqb ct (lit "text/plain") then TxtTile
      else FileTile
  end.

End PreviewAttachment.

(* ================================================================== *)
(** * app/(chat)/api/chat/schema.ts *)
(* ================================================================== *)

Module ChatSchema.

(** [z.enum(["image/jpeg", "image/png", "application/pdf", "text/plain"])] *)
Definition mediaTypes : list jsstring :=
  [lit "image/jpeg"; lit "image/png"; lit "application/pdf"; lit "text/plain"].

(** [z.string().min(lo).max(hi)] *)
Definition string_between (lo hi : N) (s : jsstring) : bool :=
  N.leb lo (N.of_nat (length s)) && N.leb (N.of_nat (length s)) hi.

(** [textPartSchema], on the text of a text part. *)
Definition textPartSchema (text : jsstring) : bool :=
  string_between 1 200000 text.

(** [filePartSchema], on the fields of a file part. *)
Definition filePartSchema (name mediaType : jsstring)
  (extractedText : option jsstring) : bool :=
  existsb (jseqb mediaType) mediaTypes
  && string_between 1 100 name
  && match extractedText with
     | None => true
     | Some t => N.leb (N.of_nat (length t)) 200000
     end.

(** [partSchema = z.union([textPartSchema, filePartSchema])] *)
Definition partSchema (part : ChatRoute.UiPart) : bool :=
  match part with
  | ChatRoute.UiText text => textPartSchema text
  | ChatRoute.UiFile _ name mediaType extractedText =>
      filePartSchema name mediaType extractedText
  end.

(** [parts: z.array(partSchema)] *)
Definition partsSchema (parts : list ChatRoute.UiPart) : bool :=
  forallb partSchema parts.

End ChatSchema.

(* ================================================================== *)
(** * app/(chat)/api/files/upload/route.ts *)
(* ================================================================== *)

Module UploadRoute.

Import FileParser.

(** The [file] entry of the form: a named [Blob]. *)
Record File := {
  type : jsstring;
  name : jsstring;
  bytes : Buffer
}.

Definition size (file : File) : N := N.of_nat (length (bytes file)).

(** The request: whether it has a body, and what [request.formData()]
    gives, the [file] entry or the message of the error it throws. *)
Record Request := {
  hasBody : bool;
  formData : Result jsstring (option File)
}.

(** What the handler cannot decide: the parser, the drawn name and whether
    [writeFile] succeeds (the message of its error otherwise). *)
Record Env := {
  pdfParse : Buffer -> Result JsError PdfData;
  randomUUID : jsstring;
  writeFile : jsstring -> Buffer -> Result jsstring unit
}.

Record Data := {
  url : jsstring;
  pathname : jsstring;
  contentType : jsstring;
  contentDisposition : jsstring;
  data_name : jsstring;
  extractedText : option jsstring
}.

Inductive Body :=
| Text (text : jsstring)
| ErrorJson (error : jsstring) (details : option jsstring)
| DataJson (data : Data).

Record Response := {
  status : nat;
  body : Body
}.

(** The answer and the files written under [public/uploads]. *)
Definition Outcome : Type := Response * list (jsstring * Buffer).

Definition allowedTypes : list jsstring :=
  [lit "application/pdf"; lit "text/plain"; lit "image/png"; lit "image/jpeg"].

Definition maxSize : N := 10 * 1024 * 1024.

(** The two refinements of [FileSchema]: the messages of those that fail. *)
Definition fileSchemaErrors (file : File) : list jsstring :=
  (if N.leb (size file) maxSize then []
   else [lit "File size should be less than 10MB"])
  ++ (if existsb (jseqb (type file)) allowedTypes then []
      else [lit "File type should be PDF, TXT, PNG, or JPG"]).

(** [messages.join(", ")] *)
Fixpoint join (messages : list jsstring) : jsstring :=
  match messages with
  | [] => []
  | [m] => m
  | m :: rest => m ++ lit ", " ++ join rest
  end.

(** [filename.split('.').pop()] *)
Definition fileExtension (filename : jsstring) : jsstring :=
  rev (Memory.takeWhile (fun c => negb (N.eqb c 46)) (rev filename)).

Section Post.

Variable env : Env.

Definition failure (status : nat) (error : jsstring) (details : option jsstring)
  : Response :=
  {| status := status; body := ErrorJson error details |}.

(** The extraction by media type: the text for a PDF or a text file,
    nothing for an image, or the response that ends the request. *)
Definition extractByType (file : File) : Result Response (option jsstring) :=
  if jseqb (type file) (lit "application/pdf") then
    match extractTextFromPDF (pdfParse env) (bytes file) with
    | Ok text => Ok (Some text)
    | Throw error =>
        Throw (failure 500 (lit "Failed to extract text from PDF")
                 (message error))
    end
  else if jseqb (type file) (lit "text/plain") then
    match extractTextFromTextFile (bytes file) with
    | Ok text => Ok (Some text)
    | Throw error =>
        Throw (failure 500 (lit "Failed to read text file") (message error))
    end
  else Ok None.

(** [POST(request)] *)
Definition POST (request : Request) : Outcome :=
  if negb (hasBody request) then
    ({| status := 400; body := Text (lit "Request body is empty") |}, [])
  else
    match formData request with
    | Throw msg => (failure 500 (lit "Failed to process request") (Some msg), [])
    | Ok None => (failure 400 (lit "No file uploaded") None, [])
    | Ok (Some file) =>
        match fileSchemaErrors file with
        | (_ :: _) as errors => (failure 400 (join errors) None, [])
        | [] =>
            let filename := name file in
            let uniqueFilename :=
              randomUUID env ++ lit "." ++ fileExtension filename in
            match writeFile env uniqueFilename (bytes file) with
            | Throw msg => (failure 500 (lit "Upload failed") (Some msg), [])
            | Ok _ =>
                let written := [(uniqueFilename, bytes file)] in
                match extractByType file with
                | Throw response => (response, written)
                | Ok extracted =>
                    ({| status := 200;
                        body := DataJson
                          {| url := lit "/uploads/" ++ uniqueFilename;
                             pathname := uniqueFilename;
                             contentType := type file;
                             contentDisposition :=
                               lit "attachment; filename=" ++ [34%N]
                               ++ filename ++ [34%N];
                             data_name := filename;
                             extractedText := extracted |} |},
                     written)
                end
            end
        end
    end.

End Post.

End UploadRoute.

(* ================================================================== *)
(** * Definitions used to state the properties *)
(* ================================================================== *)

Import FileParser Memory.

(** A parser that rejects every buffer as an invalid PDF. *)
Definition rejecting_parser (buffer : Buffer) : Result JsError PdfData :=
  Throw {| message := Some (lit "Invalid PDF structure") |}.

(** What [pdf-parse] makes of bytes that are no PDF: the empty buffer is
    reported as holding no data, any other as an invalid PDF. *)
Definition garbage_parser (buffer : Buffer) : Result JsError PdfData :=
  match buffer with
  | [] => Throw {| message := Some (lit "PDFDocument: stream must have data") |}
  | _ :: _ => Throw {| message := Some (lit "Invalid PDF structure") |}
  end.

(** The text [s] stands somewhere in [text]. *)
Definition mentions (text s : jsstring) : Prop :=
  exists pre post, text = pre ++ s ++ post.

(** The marker the truncation policy asks for. *)
Definition truncation_marker : jsstring := lit "[... content truncated ...]".

(** A PDF whose extracted text has 2001 characters. *)
Definition long_pdf : MultimodalInput.Attachment :=
  {| MultimodalInput.url := lit "/uploads/report.pdf";
     MultimodalInput.name := lit "report.pdf";
     MultimodalInput.contentType := lit "application/pdf";
     MultimodalInput.extractedText := Some (repeat 120%N 2001) |}.

(** A text attachment of content "hello". *)
Definition hello_txt (name : jsstring) : MultimodalInput.Attachment :=
  {| MultimodalInput.url := lit "/uploads/" ++ name;
     MultimodalInput.name := name;
     MultimodalInput.contentType := lit "text/plain";
     MultimodalInput.extractedText := Some (lit "hello") |}.

(** A lowered message whose only part refers to a stored image. *)
Definition referencing_message : ChatRoute.ModelMessage :=
  {| ChatRoute.role := lit "user";
     ChatRoute.content :=
       ChatRoute.ContentParts
         [ChatRoute.MFile (Some (lit "/uploads/cat.png")) (lit "image/png")
            (Some (lit "cat.png"))] |}.

(** A lowered message with an inline image and a question. *)
Definition inline_message : ChatRoute.ModelMessage :=
  {| ChatRoute.role := lit "user";
     ChatRoute.content :=
       ChatRoute.ContentParts
         [ChatRoute.MFile (Some (lit "data:image/png;base64,iVBORw0KGgo="))
            (lit "image/png") (Some (lit "cat.png"));
          ChatRoute.MText (lit "what is in this image?")] |}.

(** ** The memory table *)

(** Rows of a user that hold a key. *)
Definition count_user_key (u k : jsstring) (rows : list Memory) : nat :=
  length (filter (same_user_key u k) rows).

(** At most one row for every pair of a user and a key. *)
Definition unique_user_key (rows : list Memory) : Prop :=
  forall u k, count_user_key u k rows <= 1.

(** The world after a sequence of [saveMemory] calls, whatever each of
    them returns or throws. *)
Definition run_saves (env : Env) (calls : list CreateMemoryParams) (w : World)
  : World :=
  fold_left (fun w params => snd (saveMemory env params w)) calls w.

(** [importance = 5] as the default of the destructuring. *)
Definition importance_or_default (params : CreateMemoryParams) : Z :=
  match p_importance params with Some i => i | None => 5%Z end.

(** The world with one more date read and [n] more statements issued. *)
Definition advance (dates' statements' : nat) (rows : list Memory) (w : World)
  : World :=
  {| table := rows; statements := statements' + statements w;
     dates := dates' + dates w; inserts := inserts w; console := console w |}.

(** [saveMemory({ userId, category: "personal", key: "name", value: "Alice",
    importance: 7 })] *)
Definition alice (u : Uuid) : CreateMemoryParams :=
  {| p_userId := u; p_chatId := None; p_category := personal;
     p_key := lit "name"; p_value := lit "Alice";
     p_importance := Some 7%Z; p_metadata := None |}.

(** An environment without faults; the clock ticks at every reading. *)
Definition quiet : Env :=
  {| fault := fun _ => false;
     clock := fun n => Z.of_nat n;
     uuid := fun n => lit "id-" ++ toString (Z.of_nat n);
     toISOString := toString |}.

Definition empty_world : World :=
  {| table := []; statements := 0; dates := 0; inserts := 0; console := [] |}.

(** A stored memory with metadata and a chat. *)
Definition stored_name : Memory :=
  {| id := lit "id-0"; userId := lit "user-1"; chatId := Some (lit "chat-1");
     category := personal; key := lit "name"; value := lit "Alice";
     importance := lit "7"; createdAt := 100%Z; updatedAt := 100%Z;
     lastAccessedAt := 100%Z; accessCount := lit "1";
     metadata := Some [(lit "extractedFrom", lit "conversation")] |}.

Definition stored_world : World :=
  {| table := [stored_name]; statements := 0; dates := 0; inserts := 1;
     console := [] |}.

(** An upsert of the stored key under another category, with neither
    metadata nor a chat. *)
Definition recategorize : CreateMemoryParams :=
  {| p_userId := lit "user-1"; p_chatId := None; p_category := fact;
     p_key := lit "name"; p_value := lit "Bob";
     p_importance := Some 9%Z; p_metadata := None |}.

(** ** The rendering of memories, section by section *)

Definition in_category (c : MemoryCategory) (m : Memory) : bool :=
  category_eqb (category m) c.

(** The categories that occur, in the order of their first occurrence. *)
Definition add_category (seen : list MemoryCategory) (c : MemoryCategory)
  : list MemoryCategory :=
  if existsb (category_eqb c) seen then seen else seen ++ [c].

Definition first_occurrences (memories : list Memory) : list MemoryCategory :=
  fold_left add_category (map category memories) [].

(** The categories that occur, in the order personal, preference, context,
    fact. *)
Definition fixed_order (memories : list Memory) : list MemoryCategory :=
  filter (fun c => existsb (in_category c) memories)
    [personal; preference; context; fact].

Definition item_line (item : Memory) : jsstring :=
  lit "- " ++ key item ++ lit ": " ++ value item ++ nl.

(** The headed section of a category: its records in the order of the
    list. *)
Definition section (memories : list Memory) (c : MemoryCategory) : jsstring :=
  lit "### " ++ categoryTitles c ++ nl
  ++ concat (map item_line (filter (in_category c) memories)) ++ nl.

(** The sections of the categories [order], under the title. *)
Definition render (order : list MemoryCategory) (memories : list Memory)
  : jsstring :=
  match memories with
  | [] => []
  | _ :: _ =>
      trim (lit "## User Memory" ++ nl ++ nl
            ++ concat (map (section memories) order))
  end.

Definition known_fact : Memory :=
  {| id := lit "id-1"; userId := lit "user-1"; chatId := None;
     category := fact; key := lit "city"; value := lit "Paris";
     importance := lit "9"; createdAt := 100%Z; updatedAt := 100%Z;
     lastAccessedAt := 100%Z; accessCount := lit "1"; metadata := None |}.

(** ** The outcome of the extraction rules *)

(** A rule fires when its pattern matches with a non-empty group 1. *)
Definition rule_matches (message : jsstring) (pattern : Pattern) : bool :=
  match regex pattern message with
  | Some capture => truthy capture
  | None => false
  end.

Definition matching_rules (message : jsstring) : list Pattern :=
  filter (rule_matches message) patterns.


(** What became of the write of one rule. *)
Definition Outcome : Type := Pattern * Result Exn (option Memory).





(** The first statement does not reach the database; the later ones do. *)
Definition first_statement_fails : Env :=
  {| fault := fun n => Nat.eqb n 0;
     clock := fun n => Z.of_nat n;
     uuid := fun n => lit "id-" ++ toString (Z.of_nat n);
     toISOString := toString |}.

Definition bob_prefers_tea : ExtractParams :=
  {| e_userId := lit "user-1"; e_chatId := lit "chat-1";
     userMessage := lit "my name is Bob. I prefer tea";
     aiResponse := lit "Nice to meet you, Bob!" |}.

(** ** A ranking scenario *)

Definition importance_ten : Memory :=
  {| id := lit "id-10"; userId := lit "user-1"; chatId := None;
     category := personal; key := lit "allergy"; value := lit "peanuts";
     importance := lit "10"; createdAt := 100%Z; updatedAt := 100%Z;
     lastAccessedAt := 100%Z; accessCount := lit "1"; metadata := None |}.

Definition importance_nine : Memory :=
  {| id := lit "id-9"; userId := lit "user-1"; chatId := None;
     category := preference; key := lit "editor"; value := lit "vim";
     importance := lit "9"; createdAt := 50%Z; updatedAt := 50%Z;
     lastAccessedAt := 50%Z; accessCount := lit "1"; metadata := None |}.

Definition ranked_world : World :=
  {| table := [importance_ten; importance_nine]; statements := 0; dates := 0;
     inserts := 2; console := [] |}.

(** [{ minImportance: 5, limit: 20 }] *)
Definition default_policy : QueryOptions :=
  {| o_category := None; o_limit := Some 20%Z; o_minImportance := Some 5%Z |}.

(** The rows a call asks for: those of the user, of the category when one
    is given, and of an importance, read as an integer, of [minImportance]
    at least when one is given that is not 0. *)
Definition wanted (uid : Uuid) (options : option QueryOptions) (m : Memory)
  : Prop :=
  userId m = uid /\
  match options with
  | None => True
  | Some o =>
      match o_category o with
      | Some c => category m = c
      | None => True
      end /\
      match o_minImportance o with
      | Some k =>
          k = 0%Z \/
          exists i, cast_integer (importance m) = Ok i /\ (k <= i)%Z
      | None => True
      end
  end.

(** ** Primary keys, accesses and captures *)

(** No two rows share their primary key. *)
Definition unique_ids (rows : list Memory) : Prop := NoDup (map id rows).

(** No statement reaches the database. *)
Definition unreachable : Env :=
  {| fault := fun _ => true;
     clock := fun n => Z.of_nat n;
     uuid := fun n => lit "id-" ++ toString (Z.of_nat n);
     toISOString := toString |}.

(** [c] is what follows a copy of the literal [p], case ignored, somewhere
    in [s], up to [post]. *)
Definition follows_literal (p c s post : jsstring) : Prop :=
  exists pre m,
    s = pre ++ m ++ c ++ post /\ map canonicalize m = map canonicalize p.

(** [post] is empty or starts with a character outside the class [f]. *)
Definition stops_at (f : N -> bool) (post : jsstring) : Prop :=
  match post with
  | [] => True
  | x :: _ => f x = false
  end.

(** A parser that reads the text ["  Hello" LF] on one page. *)
Definition reading_parser (buffer : Buffer) : Result JsError PdfData :=
  Ok {| text := Some (lit "  Hello" ++ nl); numpages := 1 |}.

(** Every byte is an ASCII character. *)
Definition ascii_only (buffer : Buffer) : bool :=
  forallb (fun b => N.leb (Byte.to_N b) 127) buffer.

(** An open multi-byte sequence has one byte of credit. *)
Definition open_sequence (st : DecoderState) : nat :=
  match bytes_needed st with O => 0 | S _ => 1 end.

(** ** Uploads *)

(** No character of [s] is a dot. *)
Definition dotless (s : jsstring) : bool :=
  forallb (fun c => negb (N.eqb c 46)) s.

(** A disk that takes every file, a parser that rejects every buffer and a
    drawn name. *)
Definition upload_env : UploadRoute.Env :=
  {| UploadRoute.pdfParse := rejecting_parser;
     UploadRoute.randomUUID := lit "3b241101-e2bb-4255-8caf-4136c566a962";
     UploadRoute.writeFile := fun _ _ => Ok tt |}.

(** A request whose form carries [file]. *)
Definition upload (file : UploadRoute.File) : UploadRoute.Request :=
  {| UploadRoute.hasBody := true; UploadRoute.formData := Ok (Some file) |}.

(** Three uploads: a PNG image, a GIF image and a PDF the parser rejects. *)
Definition tiny_png : UploadRoute.File :=
  {| UploadRoute.type := lit "image/png";
     UploadRoute.name := lit "holiday.photo.png";
     UploadRoute.bytes := [x89; x50; x4e; x47] |}.

Definition tiny_gif : UploadRoute.File :=
  {| UploadRoute.type := lit "image/gif";
     UploadRoute.name := lit "anim.gif";
     UploadRoute.bytes := [x47; x49; x46] |}.

Definition broken_pdf : UploadRoute.File :=
  {| UploadRoute.type := lit "application/pdf";
     UploadRoute.name := lit "scan.pdf";
     UploadRoute.bytes := [x00; x01] |}.

(** The attachment the client keeps for an uploaded document. *)
Definition short_name_txt : MultimodalInput.Attachment :=
  {| MultimodalInput.url := lit "/uploads/notes.txt";
     MultimodalInput.name := lit "notes.txt";
     MultimodalInput.contentType := lit "text/plain";
     MultimodalInput.extractedText := Some (repeat 120%N 5000) |}.

(** The response is an error of the given message. *)
Definition answers (response : UploadRoute.Response) (error : jsstring) : bool :=
  match UploadRoute.body response with
  | UploadRoute.ErrorJson e _ => jseqb e error
  | _ => false
  end.

(* ================================================================== *)
(** * Properties *)
(* ================================================================== *)

(** ** Strings *)

Lemma jseqb_eq (a b : jsstring) : jseqb a b = true <-> a = b.
Proof.
  revert b; induction a as [|x a IH]; intros [|y b]; simpl;
    try (split; [discriminate | discriminate]); try tauto.
  rewrite andb_true_iff, N.eqb_eq, IH.
  split; [intros [-> ->]; reflexivity | intros H; inversion H; auto].
Qed.

Lemma jseqb_refl (a : jsstring) : jseqb a a = true.
Proof. apply jseqb_eq; reflexivity. Qed.

Lemma startsWith_app (p r : jsstring) : startsWith (p ++ r) p = true.
Proof.
  induction p as [|c p IH]; [destruct r; reflexivity|].
  cbn [app startsWith]. now rewrite N.eqb_refl, IH.
Qed.

Lemma startsWith_prefix (p : jsstring) :
  forall s, startsWith s p = true -> exists post, s = p ++ post.
Proof.
  induction p as [|c p IH]; intros s H; [now exists s|].
  destruct s as [|d s]; [discriminate|]. cbn [startsWith] in H.
  apply andb_true_iff in H. destruct H as [Hc Hs]. apply N.eqb_eq in Hc.
  destruct (IH _ Hs) as [post ->]. exists post. now subst.
Qed.

(** [includes] finds a text exactly when the text stands somewhere in the
    string. *)
Lemma includes_mentions (text s : jsstring) :
  includes text s = true <-> mentions text s.
Proof.
  unfold mentions. split.
  - induction text as [|c text IH]; cbn [includes].
    + destruct (startsWith [] s) eqn:E; [|discriminate]. intros _.
      apply startsWith_prefix in E. destruct E as [post E]. now exists [], post.
    + destruct (startsWith (c :: text) s) eqn:E.
      * intros _. apply startsWith_prefix in E. destruct E as [post E].
        now exists [], post.
      * intros H. destruct (IH H) as [pre [post E']].
        exists (c :: pre), post. cbn [app]. now rewrite E'.
  - intros [pre [post ->]]. induction pre as [|c pre IH].
    + cbn [app]. destruct (s ++ post) as [|d rest] eqn:E; cbn [includes];
        rewrite <- E, startsWith_app; reflexivity.
    + cbn [app includes]. rewrite IH. now destruct (startsWith _ s).
Qed.

(** ** extractTextFromPDF *)

Section PdfFailure.

Variable pdfParse : Buffer -> Result JsError PdfData.

(** C6 (amended). When the parse step fails, [extractTextFromPDF] throws
    and never returns a string; no call ever returns the empty string, so a
    failure is not mistaken for an empty document.  The message of the
    thrown error is chosen from the parser's error text: a text in which
    "Invalid PDF" stands gives the corrupt-file error; otherwise one in
    which "password" stands gives the password-protected error; otherwise
    one in which "encrypted" stands gives the encrypted error; any other
    text gives the generic parsing error that carries it, and an error
    without text gives the bare generic failure. *)
Theorem extractTextFromPDF_parse_failure (buffer : Buffer) (error : JsError) :
  pdfParse buffer = Throw error ->
  (forall s, extractTextFromPDF pdfParse buffer <> Ok s) /\
  (forall other s, extractTextFromPDF pdfParse other = Ok s -> s <> []) /\
  exists msg,
    extractTextFromPDF pdfParse buffer = Throw (Error msg) /\
    match message error with
    | None => msg = lit "Failed to extract text from PDF"
    | Some detail =>
        (mentions detail (lit "Invalid PDF") ->
           msg = lit "Invalid or corrupted PDF file") /\
        (~ mentions detail (lit "Invalid PDF") ->
         mentions detail (lit "password") ->
           msg = lit "PDF is password-protected") /\
        (~ mentions detail (lit "Invalid PDF") ->
         ~ mentions detail (lit "password") ->
         mentions detail (lit "encrypted") ->
           msg = lit "PDF is encrypted") /\
        (~ mentions detail (lit "Invalid PDF") ->
         ~ mentions detail (lit "password") ->
         ~ mentions detail (lit "encrypted") ->
           msg = match detail with
                 | [] => lit "Failed to extract text from PDF"
                 | _ :: _ => lit "PDF parsing error: " ++ detail
                 end)
    end.
Proof.
  intros Hfail. split; [|split].
  { intros s. unfold extractTextFromPDF. rewrite Hfail. discriminate. }
  { intros other s. unfold extractTextFromPDF.
    destruct (pdfParse other) as [data|]; [|discriminate].
    destruct (text data) as [fullText|]; [|intros H; inversion H; discriminate].
    destruct (negb (truthy fullText) || (length (trim fullText) =? 0)%nat) eqn:E;
      intros H; inversion H; [discriminate|].
    apply orb_false_iff in E. destruct E as [_ E].
    intros Hnil. rewrite Hnil in E. discriminate. }
  unfold extractTextFromPDF. rewrite Hfail.
  exists (errorMessage error). split; [reflexivity|].
  unfold errorMessage, message_includes.
  destruct (message error) as [detail|]; [|reflexivity].
  pose proof (includes_mentions detail (lit "Invalid PDF")) as Hinvalid.
  pose proof (includes_mentions detail (lit "password")) as Hpassword.
  pose proof (includes_mentions detail (lit "encrypted")) as Hencrypted.
  destruct (includes detail (lit "Invalid PDF")).
  { repeat split; intros; try reflexivity;
      match goal with H : ~ _ |- _ => exfalso; apply H; now apply Hinvalid end. }
  assert (Ninvalid : ~ mentions detail (lit "Invalid PDF"))
    by (intros H; apply Hinvalid in H; discriminate).
  destruct (includes detail (lit "password")).
  { repeat split; intros; try reflexivity; try contradiction;
      match goal with
      | H : ~ mentions detail (lit "password") |- _ =>
          exfalso; apply H; now apply Hpassword
      end. }
  assert (Npassword : ~ mentions detail (lit "password"))
    by (intros H; apply Hpassword in H; discriminate).
  destruct (includes detail (lit "encrypted")).
  { repeat split; intros; try reflexivity; try contradiction;
      match goal with
      | H : ~ mentions detail (lit "encrypted") |- _ =>
          exfalso; apply H; now apply Hencrypted
      end. }
  assert (Nencrypted : ~ mentions detail (lit "encrypted"))
    by (intros H; apply Hencrypted in H; discriminate).
  repeat split; intros; try contradiction.
  destruct detail; reflexivity.
Qed.

End PdfFailure.

Lemma extractTextFromPDF_parse_failure_witness :
  garbage_parser [x00; xff]
  = Throw {| message := Some (lit "Invalid PDF structure") |} /\
  (forall s, extractTextFromPDF garbage_parser [x00; xff] <> Ok s) /\
  extractTextFromPDF garbage_parser [x00; xff]
  = Throw (Error (lit "Invalid or corrupted PDF file")).
Proof.
  split; [reflexivity|].
  destruct (extractTextFromPDF_parse_failure garbage_parser [x00; xff]
              (error := {| message := Some (lit "Invalid PDF structure") |})
              eq_refl) as [Hnever [_ [msg [Hthrow [Hcorrupt _]]]]].
  split; [exact Hnever|].
  rewrite Hthrow, Hcorrupt; [reflexivity|].
  exists [], (lit " structure"). reflexivity.
Defined.

(** The empty buffer is garbage too, and it does not fail as a corrupt
    file: the parser reports it in words in which "Invalid PDF" does not
    stand, and the error thrown is the generic one. *)
Lemma C6_empty_buffer_is_not_reported_corrupt :
  ~ (forall buffer error,
       garbage_parser buffer = Throw error ->
       extractTextFromPDF garbage_parser buffer
       = Throw (Error (lit "Invalid or corrupted PDF file"))).
Proof.
  intros H. specialize (H [] _ eq_refl). discriminate.
Qed.

(** ** extractTextFromTextFile *)

Lemma decode_idle_cons (b : byte) (rest : list byte) :
  decode idle (b :: rest) =
  match lead (Byte.to_N b) with
  | Emit cp => cp :: decode idle rest
  | Begin st' => decode st' rest
  | Malformed => REPLACEMENT :: decode idle rest
  end.
Proof. reflexivity. Qed.

Lemma decode_open_cons (cp : N) (k : nat) (lo hi : N) (b : byte) (rest : list byte) :
  N.leb lo (Byte.to_N b) && N.leb (Byte.to_N b) hi = true ->
  decode {| code_point := cp; bytes_needed := S k; lower := lo; upper := hi |}
         (b :: rest) =
  let cp' := N.lor (N.shiftl cp 6) (N.land (Byte.to_N b) 63) in
  match k with
  | O => cp' :: decode idle rest
  | S _ => decode {| code_point := cp'; bytes_needed := k;
                     lower := 128; upper := 191 |} rest
  end.
Proof. intros H. cbn [decode bytes_needed lower upper code_point]. rewrite H. reflexivity. Qed.

Lemma decode_strict_sound (n : nat) :
  forall (bs : list byte) (cps : list N),
    length bs <= n ->
    decode_strict (map Byte.to_N bs) = Some cps ->
    decode idle bs = cps.
Proof.
  induction n as [|n IH]; intros bs cps Hlen H.
  - destruct bs; [|cbn in Hlen; lia]. inversion H. reflexivity.
  - destruct bs as [|b0 r0]; [inversion H; reflexivity|].
    rewrite decode_idle_cons. unfold lead.
    cbn [map decode_strict] in H. cbn [length] in Hlen.
    destruct (N.leb (Byte.to_N b0) 127).
    { destruct (decode_strict (map Byte.to_N r0)) eqn:E; [|discriminate].
      inversion H. f_equal. apply IH; [lia | assumption]. }
    destruct (N.leb 194 (Byte.to_N b0) && N.leb (Byte.to_N b0) 223).
    { destruct r0 as [|b1 r1]; [discriminate|]. cbn [map] in H.
      cbn [length] in Hlen. unfold cont in H.
      destruct (N.leb 128 (Byte.to_N b1) && N.leb (Byte.to_N b1) 191) eqn:C1;
        [|discriminate].
      rewrite decode_open_cons by exact C1. cbv zeta.
      destruct (decode_strict (map Byte.to_N r1)) eqn:E; [|discriminate].
      inversion H. f_equal. apply IH; [lia | assumption]. }
    destruct (N.leb 224 (Byte.to_N b0) && N.leb (Byte.to_N b0) 239).
    { destruct r0 as [|b1 [|b2 r2]]; try discriminate. cbn [map] in H.
      cbn [length] in Hlen. unfold cont in H.
      destruct (N.leb _ (Byte.to_N b1) && N.leb (Byte.to_N b1) _) eqn:C1;
        [|discriminate].
      destruct (N.leb 128 (Byte.to_N b2) && N.leb (Byte.to_N b2) 191) eqn:C2;
        [|discriminate].
      cbn [andb] in H.
      rewrite decode_open_cons by exact C1. cbv zeta.
      rewrite decode_open_cons by exact C2. cbv zeta.
      destruct (decode_strict (map Byte.to_N r2)) eqn:E; [|discriminate].
      inversion H. f_equal. apply IH; [lia | assumption]. }
    destruct (N.leb 240 (Byte.to_N b0) && N.leb (Byte.to_N b0) 244).
    { destruct r0 as [|b1 [|b2 [|b3 r3]]]; try discriminate. cbn [map] in H.
      cbn [length] in Hlen. unfold cont in H.
      destruct (N.leb _ (Byte.to_N b1) && N.leb (Byte.to_N b1) _) eqn:C1;
        [|discriminate].
      destruct (N.leb 128 (Byte.to_N b2) && N.leb (Byte.to_N b2) 191) eqn:C2;
        [|discriminate].
      destruct (N.leb 128 (Byte.to_N b3) && N.leb (Byte.to_N b3) 191) eqn:C3;
        [|discriminate].
      cbn [andb] in H.
      rewrite decode_open_cons by exact C1. cbv zeta.
      rewrite decode_open_cons by exact C2. cbv zeta.
      rewrite decode_open_cons by exact C3. cbv zeta.
      destruct (decode_strict (map Byte.to_N r3)) eqn:E; [|discriminate].
      inversion H. f_equal. apply IH; [lia | assumption]. }
    discriminate.
Qed.

(** X15. On well-formed UTF-8 the text file is returned decoded: the
    lenient decoder agrees with the strict one. *)
Lemma extractTextFromTextFile_valid_utf8 (buffer : Buffer) (cps : list N) :
  utf8_decode_strict buffer = Some cps ->
  extractTextFromTextFile buffer = Ok (flat_map utf16 cps).
Proof.
  intros H. apply (@decode_strict_sound (length buffer) buffer cps (le_n _)) in H.
  unfold extractTextFromTextFile, Buffer_toString_utf8. now rewrite H.
Qed.

(** C7. [extractTextFromTextFile] returns for every buffer.  On the single
    byte 0xFF, which is not valid UTF-8, it returns the string made of
    U+FFFD instead of failing. *)
Theorem extractTextFromTextFile_returns_on_invalid_utf8 :
  utf8_valid [xff] = false /\
  extractTextFromTextFile [xff] = Ok [REPLACEMENT] /\
  forall buffer, exists s, extractTextFromTextFile buffer = Ok s.
Proof.
  split; [reflexivity|]. split; [reflexivity|].
  intros buffer. eexists. reflexivity.
Qed.

(** ** submitForm *)

Lemma filter_defined_in {A} (f : MultimodalInput.Attachment -> option A)
  (l : list MultimodalInput.Attachment) (p : A) :
  In p (MultimodalInput.filter_defined (map f l)) <->
  exists a, In a l /\ f a = Some p.
Proof.
  induction l as [|a l IH]; simpl.
  - split; [tauto | intros [a [[] _]]].
  - destruct (f a) as [q|] eqn:E; simpl; rewrite IH; split.
    + intros [<- | [b [Hb Hf]]]; [exists a; auto | exists b; auto].
    + intros [b [[<- | Hb] Hf]]; [left; congruence | right; exists b; auto].
    + intros [b [Hb Hf]]; exists b; auto.
    + intros [b [[<- | Hb] Hf]]; [congruence | exists b; auto].
Qed.

(** C4. In the message [submitForm] sends, the parts derived from the
    attachments come first, in the order of the attachments, and the text
    the user typed is the last part; a text attachment "hello" sent with
    the input "summarize" gives the document part followed by the text
    part. *)
Theorem submitForm_attachments_precede_text
  (imageHandling : MultimodalInput.Attachment -> option MultimodalInput.Part)
  (attachments : list MultimodalInput.Attachment) (input : jsstring) :
  let ps := MultimodalInput.parts
              (MultimodalInput.submitForm imageHandling attachments input) in
  ps = MultimodalInput.filter_defined
         (map (MultimodalInput.mapAttachment imageHandling) attachments)
       ++ [MultimodalInput.TextPart input] /\
  nth_error ps (length ps - 1) = Some (MultimodalInput.TextPart input) /\
  (forall i p, nth_error ps i = Some p -> i < length ps - 1 ->
     exists a, In a attachments /\
               MultimodalInput.mapAttachment imageHandling a = Some p) /\
  (forall a p, In a attachments ->
     MultimodalInput.mapAttachment imageHandling a = Some p ->
     exists i, i < length ps - 1 /\ nth_error ps i = Some p) /\
  (forall name,
     MultimodalInput.parts
       (MultimodalInput.submitForm imageHandling [hello_txt name]
          (lit "summarize"))
     = [MultimodalInput.TextPart
          (lit "[File: " ++ name ++ lit "]" ++ nl ++ nl ++ lit "hello");
        MultimodalInput.TextPart (lit "summarize")]).
Proof.
  cbv zeta. unfold MultimodalInput.submitForm, MultimodalInput.mappedParts.
  cbn [MultimodalInput.parts].
  set (derived := MultimodalInput.filter_defined
                    (map (MultimodalInput.mapAttachment imageHandling) attachments)).
  assert (Hlen : length (derived ++ [MultimodalInput.TextPart input]) - 1
                 = length derived).
  { rewrite length_app. simpl. lia. }
  rewrite Hlen.
  split; [reflexivity|]. split.
  { rewrite nth_error_app2 by lia. now rewrite Nat.sub_diag. }
  split.
  { intros i p Hnth Hi. rewrite nth_error_app1 in Hnth by exact Hi.
    apply nth_error_In in Hnth. now apply filter_defined_in in Hnth. }
  split.
  { intros a p Ha Hp.
    assert (Hin : In p derived) by (apply filter_defined_in; exists a; auto).
    apply In_nth_error in Hin. destruct Hin as [i Hi]. exists i.
    assert (i < length derived) by (apply nth_error_Some; congruence).
    split; [assumption|]. now rewrite nth_error_app1. }
  intros name. reflexivity.
Qed.

Lemma submitForm_attachments_precede_text_witness :
  nth_error
    (MultimodalInput.parts
       (MultimodalInput.submitForm MultimodalInput.imageAsFile
          [hello_txt (lit "notes.txt")] (lit "summarize"))) 0
  = Some (MultimodalInput.TextPart
            (lit "[File: notes.txt]" ++ nl ++ nl ++ lit "hello")) /\
  exists a,
    In a [hello_txt (lit "notes.txt")] /\
    MultimodalInput.mapAttachment MultimodalInput.imageAsFile a
    = Some (MultimodalInput.TextPart
              (lit "[File: notes.txt]" ++ nl ++ nl ++ lit "hello")).
Proof.
  split; [reflexivity|].
  destruct (submitForm_attachments_precede_text MultimodalInput.imageAsFile
              [hello_txt (lit "notes.txt")] (lit "summarize"))
    as [_ [_ [Hbefore _]]].
  apply (Hbefore 0); [reflexivity | cbn; lia].
Defined.

Lemma mapAttachment_document
  (imageHandling : MultimodalInput.Attachment -> option MultimodalInput.Part)
  (a : MultimodalInput.Attachment) :
  MultimodalInput.is_document a = true ->
  MultimodalInput.mapAttachment imageHandling a
  = Some (MultimodalInput.TextPart
            (lit "[File: " ++ MultimodalInput.name a ++ lit "]" ++ nl ++ nl
             ++ firstn 2000 (MultimodalInput.text_or_empty a))).
Proof.
  intros Ha. unfold MultimodalInput.mapAttachment. now rewrite Ha.
Qed.

(** C2. The PDF attachment whose extracted text has 2001 characters is
    mapped to a text part made of the file header and the first 2000
    characters; nothing is appended, and the part does not end with the
    truncation marker. *)
Theorem mapAttachment_truncates_without_marker
  (imageHandling : MultimodalInput.Attachment -> option MultimodalInput.Part) :
  length (MultimodalInput.text_or_empty long_pdf) = 2001 /\
  MultimodalInput.mapAttachment imageHandling long_pdf
  = Some (MultimodalInput.TextPart
            (lit "[File: report.pdf]" ++ nl ++ nl ++ repeat 120%N 2000)) /\
  endsWith (lit "[File: report.pdf]" ++ nl ++ nl ++ repeat 120%N 2000)
    truncation_marker = false.
Proof.
  split; [reflexivity|]. split; [reflexivity | vm_compute; reflexivity].
Qed.

(** ** The pass over the model messages *)

(** The message [referencing_message] leaves the pass as it entered it:
    its file part still refers to the stored image by path. *)
Lemma C5_referenced_image_is_forwarded :
  ~ (forall msgs msg ps part,
       In msg (ChatRoute.processedModelMessages msgs) ->
       ChatRoute.content msg = ChatRoute.ContentParts ps ->
       In part ps ->
       ChatRoute.is_referenced_image part = false).
Proof.
  intros H.
  specialize (H [referencing_message] referencing_message
                [ChatRoute.MFile (Some (lit "/uploads/cat.png")) (lit "image/png")
                   (Some (lit "cat.png"))]
                (ChatRoute.MFile (Some (lit "/uploads/cat.png")) (lit "image/png")
                   (Some (lit "cat.png")))).
  assert (Hfalse : true = false).
  { apply H; [left; reflexivity | reflexivity | left; reflexivity]. }
  discriminate.
Qed.

(** C5 (amended). The pass keeps the messages, their roles and the number
    and order of their parts; a file part whose data starts with
    "data:image/" becomes an image part carrying that data, and every
    other part, a file part holding a reference included, is forwarded as
    it is.  The pass has no failure. *)
Theorem processedModelMessages_rewrites_inline_files_only
  (msgs : list ChatRoute.ModelMessage) (i : nat) (msg : ChatRoute.ModelMessage) :
  nth_error msgs i = Some msg ->
  length (ChatRoute.processedModelMessages msgs) = length msgs /\
  exists msg',
    nth_error (ChatRoute.processedModelMessages msgs) i = Some msg' /\
    ChatRoute.role msg' = ChatRoute.role msg /\
    match ChatRoute.content msg with
    | ChatRoute.ContentString s =>
        ChatRoute.content msg' = ChatRoute.ContentString s
    | ChatRoute.ContentParts ps =>
        exists ps',
          ChatRoute.content msg' = ChatRoute.ContentParts ps' /\
          length ps' = length ps /\
          forall j p, nth_error ps j = Some p ->
            (forall data mediaType filename,
               p = ChatRoute.MFile (Some data) mediaType filename ->
               startsWith data (lit "data:image/") = true ->
               nth_error ps' j = Some (ChatRoute.MImage data)) /\
            (ChatRoute.is_inline_image_file p = false ->
               nth_error ps' j = Some p)
    end.
Proof.
  intros Hmsg. unfold ChatRoute.processedModelMessages.
  split; [apply length_map|].
  exists (ChatRoute.processMessage msg).
  split; [now apply map_nth_error|].
  unfold ChatRoute.processMessage.
  destruct (ChatRoute.content msg) as [s|ps] eqn:Hc.
  - rewrite Hc. split; reflexivity.
  - cbn [ChatRoute.role ChatRoute.content]. split; [reflexivity|].
    exists (map ChatRoute.processPart ps).
    split; [reflexivity|]. split; [apply length_map|].
    intros j p Hp. rewrite (map_nth_error _ _ _ Hp). split.
    + intros data mediaType filename -> Hstart. cbn [ChatRoute.processPart].
      now rewrite Hstart.
    + intros Hno. f_equal. destruct p as [t|[d|] mt fn|im|ty]; try reflexivity.
      cbn [ChatRoute.processPart]. cbn [ChatRoute.is_inline_image_file] in Hno.
      now rewrite Hno.
Qed.

Lemma processedModelMessages_rewrites_inline_files_only_witness :
  nth_error [inline_message; referencing_message] 1 = Some referencing_message /\
  length (ChatRoute.processedModelMessages [inline_message; referencing_message])
  = 2 /\
  exists msg',
    nth_error (ChatRoute.processedModelMessages
                 [inline_message; referencing_message]) 1 = Some msg' /\
    ChatRoute.role msg' = lit "user".
Proof.
  split; [reflexivity|].
  destruct (@processedModelMessages_rewrites_inline_files_only
              [inline_message; referencing_message] 1 referencing_message eq_refl)
    as [Hlen [msg' [Hnth [Hrole _]]]].
  split; [exact Hlen|]. exists msg'. split; [exact Hnth | exact Hrole].
Defined.

(** ** The memory table: statements *)

Lemma where_rows_user_key (u k : jsstring) (rows : list Memory) :
  where_rows (where_user_key u k) rows = Ok (filter (same_user_key u k) rows).
Proof.
  induction rows as [|r rows IH]; simpl; [reflexivity|].
  rewrite IH. reflexivity.
Qed.

Lemma order_rows_unordered (rows : list Memory) :
  order_rows unordered rows = rows.
Proof.
  unfold order_rows.
  induction rows as [|r rows IH]; cbn [fold_right]; [reflexivity|].
  rewrite IH. destruct rows; reflexivity.
Qed.

(** [saveMemory], statement by statement. *)
Lemma saveMemory_unfold (env : Env) (params : CreateMemoryParams) (w : World) :
  saveMemory env params w =
  let now := clock env (dates w) in
  let importance := importance_or_default params in
  if fault env (statements w) then
    (Throw ConnectionError, advance 1 1 (table w) w)
  else
    match filter (same_user_key (p_userId params) (p_key params)) (table w) with
    | e :: _ =>
        if fault env (S (statements w)) then
          (Throw ConnectionError, advance 1 2 (table w) w)
        else
          match update_rows (has_id (id e))
                  (update_set params importance now) (table w) with
          | Throw err => (Throw err, advance 1 2 (table w) w)
          | Ok (rows', returned) =>
              (Ok (nth_error returned 0), advance 1 2 rows' w)
          end
    | [] =>
        if fault env (S (statements w)) then
          (Throw ConnectionError, advance 1 2 (table w) w)
        else
          let newId := uuid env (inserts w) in
          let w' := {| table := table w; statements := 2 + statements w;
                       dates := 1 + dates w; inserts := S (inserts w);
                       console := console w |} in
          if existsb (has_id newId) (table w) then
            (Throw UniqueViolation, w')
          else
            let row := insert_values params importance now newId in
            (Ok (Some row),
             {| table := table w ++ [row]; statements := 2 + statements w;
                dates := 1 + dates w; inserts := S (inserts w);
                console := console w |})
    end.
Proof.
  unfold saveMemory, db_select, db_update, db_insert, bind, statement, newDate,
    getTable, putTable, liftR, ret, throw, fresh_uuid, advance,
    importance_or_default, limit_rows.
  cbn [table statements dates inserts console].
  destruct (fault env (statements w)); [reflexivity|].
  cbn [table statements dates inserts console].
  rewrite where_rows_user_key, order_rows_unordered.
  cbn [Z.ltb Z.compare Z.to_nat Nat.add].
  change (Pos.to_nat 1) with 1%nat.
  destruct (filter _ (table w)) as [|e rest];
    cbn [firstn table statements dates inserts console].
  - destruct (fault env (S (statements w))); [reflexivity|].
    cbn [table statements dates inserts console].
    destruct (existsb _ (table w)); reflexivity.
  - destruct (fault env (S (statements w))); [reflexivity|].
    cbn [table statements dates inserts console].
    destruct (update_rows _ _ (table w)) as [[rows' returned]|err]; reflexivity.
Qed.

(** ** Updates keep the user and the key of a row *)

Lemma update_set_keeps (params : CreateMemoryParams) (importance : Z)
  (now : Timestamp) (m m' : Memory) :
  update_set params importance now m = Ok m' ->
  id m' = id m /\ userId m' = userId m /\ key m' = key m.
Proof.
  unfold update_set. destruct (cast_plus_one (accessCount m)); [|discriminate].
  intros H; inversion H; auto.
Qed.

Lemma update_rows_count (cond : Memory -> bool)
  (set : Memory -> Result Exn Memory) :
  (forall m m', set m = Ok m' -> userId m' = userId m /\ key m' = key m) ->
  forall rows rows' returned,
    update_rows cond set rows = Ok (rows', returned) ->
    forall u k, count_user_key u k rows' = count_user_key u k rows.
Proof.
  intros Hset. unfold count_user_key.
  induction rows as [|r rows IH]; intros rows' returned H u k.
  - inversion H. reflexivity.
  - cbn [update_rows] in H.
    destruct (update_rows cond set rows) as [[rows'' ret']|]; [|discriminate].
    specialize (IH _ _ eq_refl u k).
    destruct (cond r).
    + destruct (set r) as [r'|] eqn:E; [|discriminate].
      inversion H; subst. destruct (Hset _ _ E) as [Hu Hk].
      assert (Hsame : same_user_key u k r' = same_user_key u k r)
        by (unfold same_user_key; now rewrite Hu, Hk).
      cbn [filter]. rewrite Hsame.
      destruct (same_user_key u k r); cbn [length]; now rewrite IH.
    + inversion H; subst. cbn [filter].
      destruct (same_user_key u k r); cbn [length]; now rewrite IH.
Qed.

Lemma count_user_key_app (u k : jsstring) (a b : list Memory) :
  count_user_key u k (a ++ b) = count_user_key u k a + count_user_key u k b.
Proof. unfold count_user_key. now rewrite filter_app, length_app. Qed.

Lemma same_user_key_eq (u k : jsstring) (m : Memory) :
  same_user_key u k m = true <-> userId m = u /\ key m = k.
Proof.
  unfold same_user_key. now rewrite andb_true_iff, !jseqb_eq.
Qed.

(** One call of [saveMemory] keeps the table free of duplicates, whether it
    returns or throws. *)
Lemma saveMemory_keeps_unique (env : Env) (params : CreateMemoryParams) (w : World) :
  unique_user_key (table w) ->
  unique_user_key (table (snd (saveMemory env params w))).
Proof.
  intros Huniq. rewrite saveMemory_unfold. cbv zeta.
  destruct (fault env (statements w)); [exact Huniq|].
  destruct (filter _ (table w)) as [|e rest] eqn:Hsel.
  - destruct (fault env (S (statements w))); [exact Huniq|].
    destruct (existsb _ (table w)); [exact Huniq|].
    cbn [snd table]. intros u k. rewrite count_user_key_app.
    unfold count_user_key at 2. cbn [filter].
    destruct (same_user_key u k (insert_values _ _ _ _)) eqn:Hnew; cbn [length].
    + apply same_user_key_eq in Hnew. cbn [insert_values userId key] in Hnew.
      destruct Hnew as [<- <-]. unfold count_user_key. rewrite Hsel. simpl. lia.
    + specialize (Huniq u k). lia.
  - destruct (fault env (S (statements w))); [exact Huniq|].
    destruct (update_rows _ _ (table w)) as [[rows' returned]|err] eqn:Hup;
      [|exact Huniq].
    cbn [snd advance table]. intros u k.
    rewrite (update_rows_count (has_id (id e))
               (update_set params (importance_or_default params)
                  (clock env (dates w)))) with (rows := table w) (returned := returned).
    + apply Huniq.
    + intros m m' Hm. apply update_set_keeps in Hm. tauto.
    + exact Hup.
Qed.

Lemma run_saves_keeps_unique (env : Env) (calls : list CreateMemoryParams) :
  forall w, unique_user_key (table w) ->
            unique_user_key (table (run_saves env calls w)).
Proof.
  unfold run_saves.
  induction calls as [|params calls IH]; intros w Hw; [exact Hw|].
  cbn [fold_left]. apply IH. now apply saveMemory_keeps_unique.
Qed.

(** An update that touches exactly one row. *)
Lemma update_rows_none (cond : Memory -> bool)
  (set : Memory -> Result Exn Memory) (rows : list Memory) :
  (forall r, In r rows -> cond r = false) ->
  update_rows cond set rows = Ok (rows, []).
Proof.
  induction rows as [|r rows IH]; intros H; [reflexivity|].
  cbn [update_rows]. rewrite IH by (intros; apply H; now right).
  rewrite (H r) by now left. reflexivity.
Qed.

Lemma update_rows_single (cond : Memory -> bool)
  (set : Memory -> Result Exn Memory) (pre post : list Memory) (e e' : Memory) :
  (forall r, In r pre -> cond r = false) ->
  (forall r, In r post -> cond r = false) ->
  cond e = true ->
  set e = Ok e' ->
  update_rows cond set (pre ++ e :: post) = Ok (pre ++ e' :: post, [e']).
Proof.
  intros Hpre Hpost He Hset.
  induction pre as [|r pre IH].
  - cbn [app update_rows]. rewrite update_rows_none by exact Hpost.
    now rewrite He, Hset.
  - cbn [app update_rows]. rewrite IH by (intros; apply Hpre; now right).
    rewrite (Hpre r) by now left. reflexivity.
Qed.

Lemma filter_none (f : Memory -> bool) (rows : list Memory) :
  (forall r, In r rows -> f r = false) -> filter f rows = [].
Proof.
  induction rows as [|r rows IH]; intros H; [reflexivity|].
  cbn [filter]. rewrite (H r) by now left. apply IH. intros; apply H; now right.
Qed.

Lemma count_zero_filter (u k : jsstring) (rows : list Memory) :
  count_user_key u k rows = 0 -> filter (same_user_key u k) rows = [].
Proof. unfold count_user_key. now intros H%length_zero_iff_nil. Qed.

(** ** Decimal text of an integer and the cast back *)

Lemma digits_value_acc (u : Decimal.uint) :
  forall acc : positive,
    digits_value (Z.pos acc) (digits u) = Some (Z.pos (Pos.of_uint_acc u acc)).
Proof.
  induction u; intros acc; cbn [digits Pos.of_uint_acc];
    try reflexivity;
    cbn [digits_value isDigit N.leb N.compare Pos.compare Pos.compare_cont andb];
    rewrite <- IHu; f_equal; cbn [Z.of_N]; lia.
Qed.

Lemma digits_value_zero (u : Decimal.uint) :
  digits_value 0 (digits u) = Some (Z.of_N (Pos.of_uint u)).
Proof.
  induction u; cbn [digits Pos.of_uint]; try reflexivity;
    cbn [digits_value isDigit N.leb N.compare Pos.compare Pos.compare_cont andb];
    [exact IHu | ..];
    cbn [Z.of_N]; rewrite <- digits_value_acc; reflexivity.
Qed.

Lemma digits_head (u : Decimal.uint) :
  u <> Decimal.Nil ->
  exists c r, digits u = c :: r /\ isDigit c = true /\ isSpace c = false /\
              N.eqb c 45 = false /\ N.eqb c 43 = false.
Proof.
  destruct u; intros H; [congruence | ..];
    cbn [digits]; eexists; eexists; (split; [reflexivity|]); repeat split.
Qed.

Lemma parse_int_toString (z : Z) : parse_int (toString z) = Some z.
Proof.
  unfold toString, parse_int. destruct z as [|p|p]; cbn [Z.to_int].
  - reflexivity.
  - destruct (digits_head (DecimalPos.Unsigned.to_uint_nonnil p))
      as [c [r [Hd [Hdig [Hsp [H45 H43]]]]]].
    rewrite Hd. cbn [skip_spaces]. rewrite Hsp, H45, H43, Hdig, <- Hd.
    rewrite digits_value_zero, DecimalPos.Unsigned.of_to. reflexivity.
  - cbn [skip_spaces isSpace N.eqb N.leb N.compare Pos.eqb Pos.compare
           Pos.compare_cont andb orb].
    destruct (digits_head (DecimalPos.Unsigned.to_uint_nonnil p))
      as [c [r [Hd [Hdig _]]]].
    rewrite Hd, Hdig, <- Hd.
    rewrite digits_value_zero, DecimalPos.Unsigned.of_to. reflexivity.
Qed.

Lemma cast_integer_toString (z : Z) :
  in_int4 z = true -> cast_integer (toString z) = Ok z.
Proof. intros H. unfold cast_integer. now rewrite parse_int_toString, H. Qed.

Lemma update_rows_length (cond : Memory -> bool)
  (set : Memory -> Result Exn Memory) :
  forall rows rows' returned,
    update_rows cond set rows = Ok (rows', returned) ->
    length rows' = length rows.
Proof.
  induction rows as [|r rows IH]; intros rows' returned H.
  - inversion H. reflexivity.
  - cbn [update_rows] in H.
    destruct (update_rows cond set rows) as [[rows'' ret']|]; [|discriminate].
    specialize (IH _ _ eq_refl).
    destruct (cond r); [destruct (set r); [|discriminate]|];
      inversion H; cbn [length]; now rewrite IH.
Qed.

(** C3. Whatever sequence of [saveMemory] calls runs, and whether the calls
    return or throw, a table with at most one row per user and key keeps
    that property (the empty table has it); a call for a pair that is stored
    already adds no row; and two calls with the same arguments for a pair
    that is not stored yet, with the database reachable and a new primary
    key drawn, both return the row and leave exactly one row for the
    pair. *)
Theorem saveMemory_one_record_per_user_key (env : Env) :
  (forall calls w,
     unique_user_key (table w) ->
     unique_user_key (table (run_saves env calls w))) /\
  (forall calls w,
     table w = [] ->
     forall u k, count_user_key u k (table (run_saves env calls w)) <= 1) /\
  (forall params w,
     0 < count_user_key (p_userId params) (p_key params) (table w) ->
     length (table (snd (saveMemory env params w))) = length (table w)) /\
  (forall params w,
     count_user_key (p_userId params) (p_key params) (table w) = 0 ->
     existsb (has_id (uuid env (inserts w))) (table w) = false ->
     (forall n, n < 4 -> fault env (n + statements w) = false) ->
     exists m1 m2,
       fst (saveMemory env params w) = Ok (Some m1) /\
       fst (saveMemory env params (snd (saveMemory env params w))) = Ok (Some m2) /\
       id m2 = id m1 /\ value m2 = p_value params /\
       accessCount m1 = lit "1" /\ accessCount m2 = lit "2" /\
       table (run_saves env [params; params] w) = table w ++ [m2] /\
       count_user_key (p_userId params) (p_key params)
         (table (run_saves env [params; params] w)) = 1).
Proof.
  split; [intros calls w; apply run_saves_keeps_unique|].
  split.
  { intros calls w Hw. apply run_saves_keeps_unique. rewrite Hw.
    intros u k. cbn. lia. }
  split.
  { intros params w Hpos. rewrite saveMemory_unfold. cbv zeta.
    destruct (fault env (statements w)); [reflexivity|].
    destruct (filter _ (table w)) as [|e rest] eqn:Hsel.
    { unfold count_user_key in Hpos. rewrite Hsel in Hpos. cbn in Hpos. lia. }
    destruct (fault env (S (statements w))); [reflexivity|].
    destruct (update_rows _ _ (table w)) as [[rows' returned]|err] eqn:Hup;
      [|reflexivity].
    cbn [snd advance table]. eapply update_rows_length; exact Hup. }
  intros params w Hzero Hfresh Hfault.
  pose proof (Hfault 0 ltac:(lia)) as F0. pose proof (Hfault 1 ltac:(lia)) as F1.
  pose proof (Hfault 2 ltac:(lia)) as F2. pose proof (Hfault 3 ltac:(lia)) as F3.
  cbn [Nat.add] in F0, F1, F2, F3.
  set (row := insert_values params (importance_or_default params)
                (clock env (dates w)) (uuid env (inserts w))).
  assert (H1 : saveMemory env params w
               = (Ok (Some row),
                  {| table := table w ++ [row]; statements := 2 + statements w;
                     dates := 1 + dates w; inserts := S (inserts w);
                     console := console w |})).
  { rewrite saveMemory_unfold. cbv zeta.
    rewrite F0, (count_zero_filter _ _ _ Hzero), F1, Hfresh. reflexivity. }
  set (w1 := {| table := table w ++ [row]; statements := 2 + statements w;
                dates := 1 + dates w; inserts := S (inserts w);
                console := console w |}) in *.
  set (now2 := clock env (dates w1)).
  destruct (update_set params (importance_or_default params) now2 row)
    as [row'|] eqn:Hset; [|discriminate].
  assert (Hsel : filter (same_user_key (p_userId params) (p_key params)) (table w1)
                 = [row]).
  { cbn [w1 table]. rewrite filter_app, (count_zero_filter _ _ _ Hzero).
    cbn [filter app]. unfold same_user_key, row. cbn [insert_values userId key].
    now rewrite !jseqb_refl. }
  assert (Hup : update_rows (has_id (id row))
                  (update_set params (importance_or_default params) now2)
                  (table w1) = Ok (table w ++ [row'], [row'])).
  { cbn [w1 table]. apply update_rows_single.
    - intros r Hr. apply not_true_is_false. intros Hid.
      assert (existsb (has_id (uuid env (inserts w))) (table w) = true)
        by (apply existsb_exists; exists r; auto).
      congruence.
    - intros r [].
    - unfold has_id. apply jseqb_refl.
    - exact Hset. }
  assert (H2 : saveMemory env params w1
               = (Ok (Some row'), advance 1 2 (table w ++ [row']) w1)).
  { rewrite saveMemory_unfold. cbv zeta. fold now2.
    cbn [w1 statements]. cbn [Nat.add].
    rewrite F2, F3. change (table w ++ [row]) with (table w1).
    rewrite Hsel, Hup. reflexivity. }
  exists row, row'.
  unfold run_saves. cbn [fold_left]. rewrite H1. cbn [fst snd]. fold w1.
  rewrite H2. cbn [fst snd advance table].
  unfold update_set in Hset. cbn in Hset. inversion Hset; subst row'.
  cbn [id value accessCount].
  repeat split.
  rewrite count_user_key_app, Hzero. unfold count_user_key. cbn [filter].
  unfold same_user_key. cbn [userId key insert_values row].
  now rewrite !jseqb_refl.
Qed.

Lemma saveMemory_one_record_per_user_key_witness :
  count_user_key (lit "user-1") (lit "name") (table empty_world) = 0 /\
  count_user_key (lit "user-1") (lit "name")
    (table (run_saves quiet [alice (lit "user-1"); alice (lit "user-1")]
              empty_world)) = 1.
Proof.
  split; [reflexivity|].
  destruct (saveMemory_one_record_per_user_key quiet) as [_ [_ [_ Htwice]]].
  destruct (Htwice (alice (lit "user-1")) empty_world)
    as [m1 [m2 [_ [_ [_ [_ [_ [_ [_ Hone]]]]]]]]].
  - reflexivity.
  - reflexivity.
  - intros n _. reflexivity.
  - exact Hone.
Defined.

(** ** The update branch of saveMemory *)

(** An upsert that passes no metadata leaves the stored metadata in
    place. *)
Lemma C10_metadata_survives_an_upsert_without_metadata :
  exists m w',
    saveMemory quiet recategorize stored_world = (Ok (Some m), w') /\
    metadata m = metadata stored_name /\
    metadata m <> p_metadata recategorize.
Proof.
  eexists. eexists. split; [vm_compute; reflexivity|].
  split; [reflexivity | discriminate].
Qed.

(** C10 (amended). When [saveMemory] is called for a pair that is stored
    already, with the database reachable and the stored access count the
    text of an integer below the [int4] maximum, it returns the row updated
    in place: value, importance, updatedAt and lastAccessedAt are
    overwritten, accessCount is incremented by exactly one, metadata and
    chatId are overwritten when one is supplied and kept otherwise, and id,
    user, key, category and createdAt are unchanged, as is every other
    row. *)
Theorem saveMemory_update_in_place (env : Env) (params : CreateMemoryParams)
  (w : World) (pre post : list Memory) (e : Memory) (n : Z) :
  table w = pre ++ e :: post ->
  (forall r, In r pre -> same_user_key (p_userId params) (p_key params) r = false) ->
  same_user_key (p_userId params) (p_key params) e = true ->
  (forall r, In r (pre ++ post) -> has_id (id e) r = false) ->
  fault env (statements w) = false ->
  fault env (S (statements w)) = false ->
  cast_integer (accessCount e) = Ok n ->
  in_int4 (n + 1) = true ->
  exists m w',
    saveMemory env params w = (Ok (Some m), w') /\
    table w' = pre ++ m :: post /\
    value m = p_value params /\
    importance m = toString (importance_or_default params) /\
    updatedAt m = clock env (dates w) /\
    lastAccessedAt m = clock env (dates w) /\
    accessCount m = toString (n + 1) /\
    cast_integer (accessCount m) = Ok (n + 1)%Z /\
    metadata m = match p_metadata params with
                 | Some md => Some md
                 | None => metadata e
                 end /\
    chatId m = (if truthy_opt (p_chatId params) then p_chatId params
                else chatId e) /\
    category m = category e /\
    createdAt m = createdAt e /\
    id m = id e /\ userId m = userId e /\ key m = key e.
Proof.
  intros Htable Hpre He Hid F0 F1 Hcast Hrange.
  assert (Hset : exists m,
             update_set params (importance_or_default params)
               (clock env (dates w)) e = Ok m /\
             accessCount m = toString (n + 1)).
  { unfold update_set, cast_plus_one. rewrite Hcast, Hrange.
    eexists; split; reflexivity. }
  destruct Hset as [m [Hset Hcount]].
  exists m, (advance 1 2 (pre ++ m :: post) w).
  split.
  { rewrite saveMemory_unfold. cbv zeta. rewrite F0, Htable.
    rewrite filter_app, (filter_none _ _ Hpre). cbn [app filter]. rewrite He, F1.
    rewrite (@update_rows_single (has_id (id e)) _ pre post e m).
    - reflexivity.
    - intros r Hr. apply Hid, in_or_app. now left.
    - intros r Hr. apply Hid, in_or_app. now right.
    - unfold has_id. apply jseqb_refl.
    - exact Hset. }
  split; [reflexivity|].
  assert (Hcast' : cast_integer (accessCount m) = Ok (n + 1)%Z)
    by (rewrite Hcount; now apply cast_integer_toString).
  unfold update_set, cast_plus_one in Hset. rewrite Hcast, Hrange in Hset.
  inversion Hset; subst m. cbn. repeat split. exact Hcast'.
Qed.

Lemma saveMemory_update_in_place_witness :
  table stored_world = [] ++ stored_name :: [] /\
  exists m w',
    saveMemory quiet recategorize stored_world = (Ok (Some m), w') /\
    table w' = [m] /\
    value m = lit "Bob" /\ importance m = lit "9" /\
    accessCount m = lit "2" /\
    metadata m = metadata stored_name /\
    chatId m = Some (lit "chat-1") /\
    category m = personal /\ createdAt m = 100%Z.
Proof.
  split; [reflexivity|].
  destruct (@saveMemory_update_in_place quiet recategorize stored_world
              [] [] stored_name 1)
    as [m [w' [Hrun [Htab [Hv [Hi [_ [_ [Hc [_ [Hm [Hch [Hcat [Hcr _]]]]]]]]]]]]]];
    try reflexivity.
  - intros r [].
  - intros r [].
  - exists m, w'. repeat split; assumption.
Defined.

(** ** formatMemoriesForContext *)

Lemma category_eqb_eq (a b : MemoryCategory) : category_eqb a b = true <-> a = b.
Proof. destruct a, b; simpl; split; congruence. Qed.

Lemma category_eqb_sym (a b : MemoryCategory) : category_eqb a b = category_eqb b a.
Proof. destruct a, b; reflexivity. Qed.

Lemma category_or_context_id (m : Memory) : category_or_context m = category m.
Proof. unfold category_or_context. destruct (category m); reflexivity. Qed.

Lemma existsb_category (c : MemoryCategory) (l : list MemoryCategory) :
  existsb (category_eqb c) l = true <-> In c l.
Proof.
  rewrite existsb_exists. split.
  - intros [x [Hx He]]. apply category_eqb_eq in He. now subst.
  - intros H. exists c. split; [assumption | now apply category_eqb_eq].
Qed.

Lemma first_occurrences_snoc (done : list Memory) (m : Memory) :
  first_occurrences (done ++ [m])
  = add_category (first_occurrences done) (category m).
Proof. unfold first_occurrences. now rewrite map_app, fold_left_app. Qed.

Lemma first_occurrences_spec (memories : list Memory) :
  NoDup (first_occurrences memories) /\
  forall c, In c (first_occurrences memories) <->
            exists m, In m memories /\ category m = c.
Proof.
  induction memories as [|m done IH] using rev_ind.
  - split; [constructor|]. intros c; split; [intros [] | intros [m [[] _]]].
  - destruct IH as [Hnd Hin]. rewrite first_occurrences_snoc. unfold add_category.
    destruct (existsb _ (first_occurrences done)) eqn:E.
    + split; [assumption|]. intros c. rewrite Hin. split.
      * intros [x [Hx Hc]]. exists x. split; [apply in_or_app; now left | assumption].
      * intros [x [Hx Hc]]. apply in_app_or in Hx. destruct Hx as [Hx | [<- | []]].
        -- exists x; auto.
        -- apply Hin. subst c. now apply existsb_category.
    + assert (Hnot : ~ In (category m) (first_occurrences done)).
      { intros H. apply existsb_category in H. congruence. }
      split.
      * apply NoDup_app; [assumption | repeat constructor; intros [] |].
        intros x Hx [<- | []]. contradiction.
      * intros c. rewrite in_app_iff, Hin. split.
        -- intros [[x [Hx Hc]] | [<- | []]].
           ++ exists x. split; [apply in_or_app; now left | assumption].
           ++ exists m. split; [apply in_or_app; right; now left | reflexivity].
        -- intros [x [Hx Hc]]. apply in_app_or in Hx. destruct Hx as [Hx | [<- | []]].
           ++ left. exists x; auto.
           ++ right. now left.
Qed.

(** The groups of a list of memories: one entry per category that occurs,
    in the order of first occurrence, with the records of the category. *)
Lemma push_group_keys (c : MemoryCategory) (m : Memory)
  (f : MemoryCategory -> list Memory) (keys : list MemoryCategory) :
  NoDup keys ->
  push_group c m (map (fun k => (k, f k)) keys)
  = if existsb (category_eqb c) keys
    then map (fun k => (k, if category_eqb k c then f k ++ [m] else f k)) keys
    else map (fun k => (k, f k)) keys ++ [(c, [m])].
Proof.
  induction keys as [|k keys IH]; intros Hnd; [reflexivity|].
  inversion Hnd as [|? ? Hk Hnd']; subst.
  cbn [map push_group existsb]. rewrite (category_eqb_sym c k).
  destruct (category_eqb k c) eqn:E.
  - cbn [orb]. f_equal. apply category_eqb_eq in E. subst k.
    apply map_ext_in. intros k' Hk'.
    destruct (category_eqb k' c) eqn:E'; [|reflexivity].
    apply category_eqb_eq in E'. subst k'. contradiction.
  - cbn [orb]. rewrite IH by assumption.
    destruct (existsb (category_eqb c) keys); reflexivity.
Qed.

Lemma filter_in_category_snoc (k : MemoryCategory) (done : list Memory) (m : Memory) :
  filter (in_category k) (done ++ [m])
  = if category_eqb k (category m) then filter (in_category k) done ++ [m]
    else filter (in_category k) done.
Proof.
  rewrite filter_app. cbn [filter]. unfold in_category at 2.
  rewrite (category_eqb_sym (category m) k).
  destruct (category_eqb k (category m)); [reflexivity | apply app_nil_r].
Qed.

Lemma group_memories_spec (memories : list Memory) :
  group_memories memories
  = map (fun c => (c, filter (in_category c) memories))
      (first_occurrences memories).
Proof.
  unfold group_memories.
  induction memories as [|m done IH] using rev_ind; [reflexivity|].
  rewrite fold_left_app. cbn [fold_left]. rewrite IH, category_or_context_id.
  destruct (first_occurrences_spec done) as [Hnd Hin].
  rewrite push_group_keys by assumption.
  rewrite first_occurrences_snoc. unfold add_category.
  destruct (existsb (category_eqb (category m)) (first_occurrences done)) eqn:E.
  - apply map_ext. intros k. now rewrite filter_in_category_snoc.
  - rewrite map_app. cbn [map]. f_equal.
    + apply map_ext_in. intros k Hk. rewrite filter_in_category_snoc.
      destruct (category_eqb k (category m)) eqn:Ek; [|reflexivity].
      apply category_eqb_eq in Ek. subst k.
      apply existsb_category in Hk. congruence.
    + rewrite filter_in_category_snoc.
      replace (category_eqb (category m) (category m)) with true
        by (symmetry; now apply category_eqb_eq).
      rewrite filter_none; [reflexivity|].
      intros r Hr. unfold in_category. apply not_true_is_false. intros Hc.
      apply category_eqb_eq in Hc.
      assert (In (category m) (first_occurrences done))
        by (apply Hin; exists r; auto).
      apply existsb_category in H. congruence.
Qed.

Lemma fold_format_item (items : list Memory) :
  forall formatted,
    fold_left format_item items formatted
    = formatted ++ concat (map item_line items).
Proof.
  induction items as [|item items IH]; intros formatted; cbn [fold_left map concat].
  - now rewrite app_nil_r.
  - rewrite IH. unfold format_item, item_line. now rewrite <- !app_assoc.
Qed.

Lemma fold_format_entry (memories : list Memory) (order : list MemoryCategory) :
  forall formatted,
    fold_left format_entry
      (map (fun c => (c, filter (in_category c) memories)) order) formatted
    = formatted ++ concat (map (section memories) order).
Proof.
  induction order as [|c order IH]; intros formatted; cbn [fold_left map concat].
  - now rewrite app_nil_r.
  - rewrite IH. unfold format_entry, section. cbn [fst snd].
    rewrite fold_format_item. now rewrite <- !app_assoc.
Qed.

(** A fact listed before a personal record is rendered before it. *)
Lemma C8_sections_follow_the_list_not_the_fixed_order :
  formatMemoriesForContext [known_fact; stored_name]
  <> render (fixed_order [known_fact; stored_name]) [known_fact; stored_name].
Proof. vm_compute. discriminate. Qed.

(** C8 (amended). For the empty list [formatMemoriesForContext] returns the
    empty string.  Otherwise it renders, under the title, one headed
    section per category that has a record, each listing the records of
    the category in the order of the list; the sections appear in the order
    in which the categories first occur in the list, and categories
    without a record have no section. *)
Theorem formatMemoriesForContext_sections (memories : list Memory) :
  formatMemoriesForContext [] = [] /\
  formatMemoriesForContext memories
  = render (first_occurrences memories) memories /\
  NoDup (first_occurrences memories) /\
  (forall c, In c (first_occurrences memories) <->
             exists m, In m memories /\ category m = c).
Proof.
  split; [reflexivity|]. split; [|apply first_occurrences_spec].
  unfold formatMemoriesForContext, render.
  destruct memories as [|m memories]; [reflexivity|].
  cbv zeta. rewrite group_memories_spec, fold_format_entry.
  now rewrite <- !app_assoc.
Qed.

(** ** extractMemoriesFromConversation *)






(** ** getMemoriesByUserId *)

Lemma db_select_unfold (env : Env) (cond : Memory -> Result Exn bool)
  (before : Memory -> Memory -> bool) (n : Z) (w : World) :
  db_select env cond before n w =
  if fault env (statements w) then
    (Throw ConnectionError, advance 0 1 (table w) w)
  else
    match where_rows cond (table w) with
    | Throw e => (Throw e, advance 0 1 (table w) w)
    | Ok kept => (limit_rows n (order_rows before kept), advance 0 1 (table w) w)
    end.
Proof.
  unfold db_select, bind, statement, getTable, liftR, advance.
  destruct (fault env (statements w)); [reflexivity|].
  cbn [table]. destruct (where_rows cond (table w)); reflexivity.
Qed.

(** The call, statement by statement: the [SELECT], and when it yields a
    row the reading of the clock and the [UPDATE], which is rejected. *)
Lemma getMemoriesByUserId_unfold (env : Env) (uid : Uuid)
  (options : option QueryOptions) (w : World) :
  getMemoriesByUserId env uid options w =
  if fault env (statements w) then
    (Throw ConnectionError, advance 0 1 (table w) w)
  else
    match where_rows (query_conditions uid options) (table w) with
    | Throw e => (Throw e, advance 0 1 (table w) w)
    | Ok kept =>
        match limit_rows (limit_or_default options)
                (order_rows by_importance_then_recency kept) with
        | Throw e => (Throw e, advance 0 1 (table w) w)
        | Ok [] => (Ok [], advance 0 1 (table w) w)
        | Ok (_ :: _) =>
            if fault env (S (statements w)) then
              (Throw ConnectionError, advance 1 2 (table w) w)
            else (Throw AnyOperandNotArray, advance 1 2 (table w) w)
        end
    end.
Proof.
  unfold getMemoriesByUserId. unfold bind at 1. rewrite db_select_unfold.
  destruct (fault env (statements w)); [reflexivity|].
  destruct (where_rows _ (table w)) as [kept|]; [|reflexivity].
  destruct (limit_rows _ _) as [[|r rs]|]; [reflexivity | | reflexivity].
  cbv [bind newDate db_update_sql statement any_of liftR advance].
  cbn [table statements dates inserts console Nat.add].
  destruct (fault env (S (statements w))); reflexivity.
Qed.

Lemma where_rows_complete (cond : Memory -> Result Exn bool) :
  forall rows kept m,
    where_rows cond rows = Ok kept ->
    In m rows -> cond m = Ok true -> In m kept.
Proof.
  induction rows as [|r rows IH]; intros kept m H Hin Hm; [destruct Hin|].
  cbn [where_rows] in H. destruct (cond r) as [b|] eqn:Hc; [|discriminate].
  destruct (where_rows cond rows) as [kept'|]; [|discriminate].
  inversion H; subst. destruct Hin as [<- | Hin].
  - rewrite Hm in Hc. inversion Hc; subst. now left.
  - specialize (IH _ _ eq_refl Hin Hm). destruct b; [now right | assumption].
Qed.

Lemma where_rows_total (cond : Memory -> Result Exn bool) :
  forall rows,
    (forall r, In r rows -> exists b, cond r = Ok b) ->
    exists kept, where_rows cond rows = Ok kept.
Proof.
  induction rows as [|r rows IH]; intros H; [now exists []|].
  cbn [where_rows]. destruct (H r (or_introl eq_refl)) as [b ->].
  destruct IH as [kept ->]; [intros; apply H; now right|].
  eexists. reflexivity.
Qed.

Lemma insert_row_in (before : Memory -> Memory -> bool) (x m : Memory) :
  forall sorted, In m (insert_row before x sorted) <-> m = x \/ In m sorted.
Proof.
  induction sorted as [|y sorted IH]; cbn [insert_row].
  - cbn. intuition congruence.
  - destruct (before y x); cbn [In]; [rewrite IH|]; intuition congruence.
Qed.

Lemma order_rows_in (before : Memory -> Memory -> bool) (m : Memory) :
  forall rows, In m (order_rows before rows) <-> In m rows.
Proof.
  unfold order_rows. induction rows as [|r rows IH]; cbn [fold_right]; [tauto|].
  rewrite insert_row_in, IH. cbn. intuition congruence.
Qed.

Lemma limit_or_default_nonzero (options : option QueryOptions) :
  limit_or_default options <> 0%Z.
Proof.
  unfold limit_or_default. destruct options as [[c [n|] k]|]; try discriminate.
  destruct (Z.eqb_spec n 0); [discriminate | assumption].
Qed.

(** A limit that is not 0 leaves a row of a list that has one. *)
Lemma limit_rows_nil (n : Z) (rows : list Memory) :
  n <> 0%Z -> limit_rows n rows = Ok [] -> rows = [].
Proof.
  unfold limit_rows. intros Hn. destruct (Z.ltb_spec n 0) as [Hneg|Hpos].
  - intros H; now inversion H.
  - destruct (Z.to_nat n) as [|k] eqn:Hk; [lia|].
    destruct rows as [|r rows]; [reflexivity | discriminate].
Qed.

(** The rows a call asks for pass its [WHERE] clause. *)
Lemma wanted_passes (uid : Uuid) (options : option QueryOptions) (m : Memory) :
  wanted uid options m -> query_conditions uid options m = Ok true.
Proof.
  unfold wanted, query_conditions. intros [Hu Hopt].
  apply jseqb_eq in Hu. rewrite Hu. cbn [negb].
  destruct options as [[c l k]|]; [|reflexivity].
  cbn [o_category o_minImportance] in Hopt. destruct Hopt as [Hc Hk].
  assert (Hmin : match k with
                 | Some minImportance =>
                     if (minImportance =? 0)%Z then Ok true
                     else match cast_integer (importance m) with
                          | Throw e => Throw e
                          | Ok i => Ok (minImportance <=? i)%Z
                          end
                 | None => Ok true
                 end = @Ok Exn bool true).
  { destruct k as [k|]; [|reflexivity].
    destruct Hk as [-> | [i [Hi Hle]]]; [reflexivity|]. rewrite Hi.
    destruct (Z.eqb k 0); [reflexivity|]. f_equal. now apply Z.leb_le. }
  destruct c as [c|]; cbv zeta.
  - apply category_eqb_eq in Hc. rewrite Hc. cbn [negb]. exact Hmin.
  - cbn [negb]. exact Hmin.
Qed.

(** The [WHERE] clause fails on no row whose importance is an integer. *)
Lemma query_conditions_total (uid : Uuid) (options : option QueryOptions)
  (m : Memory) :
  (exists i, cast_integer (importance m) = Ok i) ->
  exists b, query_conditions uid options m = Ok b.
Proof.
  intros [i Hi]. unfold query_conditions. rewrite Hi.
  destruct (negb (jseqb (userId m) uid)); [eexists; reflexivity|].
  destruct options as [[[c|] l [k|]]|];
    repeat match goal with
           | |- context [if ?b then _ else _] => destruct b
           end; eexists; reflexivity.
Qed.

(** X4. [getMemoriesByUserId] never writes to the table, and the only list
    it ever returns is the empty one: it returns only when the user has no
    stored row that the call asks for. *)
Theorem getMemoriesByUserId_returns_only_the_empty_list (env : Env)
  (uid : Uuid) (options : option QueryOptions) (w : World) :
  table (snd (getMemoriesByUserId env uid options w)) = table w /\
  forall results,
    fst (getMemoriesByUserId env uid options w) = Ok results ->
    results = [] /\
    forall m, In m (table w) -> ~ wanted uid options m.
Proof.
  rewrite getMemoriesByUserId_unfold.
  destruct (fault env (statements w)); [split; [reflexivity | discriminate]|].
  destruct (where_rows _ (table w)) as [kept|] eqn:Hkept;
    [|split; [reflexivity | discriminate]].
  destruct (limit_rows _ _) as [[|r rs]|] eqn:Hlimit;
    [| destruct (fault env (S (statements w))) |];
    (split; [reflexivity|]); try discriminate.
  intros results H. inversion H; subst. split; [reflexivity|].
  intros m Hin Hwanted.
  apply limit_rows_nil in Hlimit; [|apply limit_or_default_nonzero].
  assert (Hm : In m kept).
  { eapply where_rows_complete; eauto using wanted_passes. }
  apply (order_rows_in by_importance_then_recency) in Hm.
  rewrite Hlimit in Hm. destruct Hm.
Qed.

Lemma getMemoriesByUserId_returns_only_the_empty_list_witness :
  fst (getMemoriesByUserId quiet (lit "user-2") (Some default_policy) ranked_world)
  = Ok [] /\
  forall m, In m (table ranked_world) ->
            ~ wanted (lit "user-2") (Some default_policy) m.
Proof.
  split; [reflexivity|].
  destruct (@getMemoriesByUserId_returns_only_the_empty_list quiet
              (lit "user-2") (Some default_policy) ranked_world)
    as [_ Hreturned].
  apply (Hreturned []). reflexivity.
Defined.

(** X5. Whenever the user has a stored row that the call asks for, the
    database is within reach and every stored importance is an integer,
    [getMemoriesByUserId] throws: the [SELECT] finds the row, the clock is
    read, and the [UPDATE] that should count the access is rejected by the
    database, because the operand of [ANY] is not an array.  Nothing is
    written. *)
Theorem getMemoriesByUserId_throws_when_a_row_is_found (env : Env)
  (uid : Uuid) (options : option QueryOptions) (w : World) (m : Memory) :
  fault env (statements w) = false ->
  fault env (S (statements w)) = false ->
  (forall r, In r (table w) -> exists i, cast_integer (importance r) = Ok i) ->
  In m (table w) ->
  wanted uid options m ->
  getMemoriesByUserId env uid options w
  = (Throw AnyOperandNotArray, advance 1 2 (table w) w).
Proof.
  intros Hf1 Hf2 Hcast Hin Hwanted.
  rewrite getMemoriesByUserId_unfold, Hf1.
  destruct (where_rows_total (query_conditions uid options) (table w))
    as [kept Hkept].
  { intros r Hr. apply query_conditions_total. now apply Hcast. }
  rewrite Hkept.
  assert (Hm : In m (order_rows by_importance_then_recency kept)).
  { apply order_rows_in. eapply where_rows_complete; eauto using wanted_passes. }
  destruct (limit_rows _ _) as [[|r rs]|] eqn:Hlimit.
  - apply limit_rows_nil in Hlimit; [|apply limit_or_default_nonzero].
    rewrite Hlimit in Hm. destruct Hm.
  - now rewrite Hf2.
  - unfold limit_rows in Hlimit.
    destruct (Z.ltb (limit_or_default options) 0); discriminate.
Qed.

Lemma getMemoriesByUserId_throws_when_a_row_is_found_witness :
  getMemoriesByUserId quiet (lit "user-1") (Some default_policy) ranked_world
  = (Throw AnyOperandNotArray, advance 1 2 (table ranked_world) ranked_world).
Proof.
  apply (@getMemoriesByUserId_throws_when_a_row_is_found quiet (lit "user-1")
           (Some default_policy) ranked_world importance_ten).
  - reflexivity.
  - reflexivity.
  - intros r [<- | [<- | []]]; eexists; reflexivity.
  - left. reflexivity.
  - split; [reflexivity|]. split; [exact I|]. right. exists 10%Z.
    split; [reflexivity | lia].
Defined.

(** C1. Two memories of one user, of importance 10 and 9, and the query
    with [minImportance = 5] and [limit = 20].  The [SELECT] of
    [getMemoriesByUserId] yields the memory of importance 9 first, because
    the text "9" sorts above the text "10"; and the call does not return
    the two memories at all: it throws when the database rejects the
    [UPDATE] that should count the access. *)
Theorem getMemoriesByUserId_throws_and_ranks_by_text :
  cast_integer (importance importance_ten) = Ok 10%Z /\
  cast_integer (importance importance_nine) = Ok 9%Z /\
  text_compare (importance importance_nine) (importance importance_ten) = Gt /\
  fst (db_select quiet (query_conditions (lit "user-1") (Some default_policy))
         by_importance_then_recency (limit_or_default (Some default_policy))
         ranked_world)
  = Ok [importance_nine; importance_ten] /\
  fst (getMemoriesByUserId quiet (lit "user-1") (Some default_policy) ranked_world)
  = Throw AnyOperandNotArray.
Proof. repeat split. Qed.

(* ================================================================== *)
(** * Further properties of the code *)
(* ================================================================== *)

(** ** Primary keys *)

Lemma has_id_eq (i : Uuid) (m : Memory) : has_id i m = true <-> id m = i.
Proof. unfold has_id. apply jseqb_eq. Qed.

Lemma filter_first_split (f : Memory -> bool) :
  forall rows e rest,
    filter f rows = e :: rest ->
    exists pre post,
      rows = pre ++ e :: post /\ f e = true /\
      (forall r, In r pre -> f r = false).
Proof.
  induction rows as [|r rows IH]; intros e rest H; [discriminate|].
  cbn [filter] in H. destruct (f r) eqn:Hr.
  - inversion H; subst. exists [], rows. repeat split; auto. intros x [].
  - destruct (IH _ _ H) as [pre [post [Hrows [He Hpre]]]].
    exists (r :: pre), post. subst rows. repeat split; auto.
    intros x [<- | Hx]; auto.
Qed.

Lemma unique_ids_split (pre post : list Memory) (e : Memory) :
  unique_ids (pre ++ e :: post) ->
  forall r, In r (pre ++ post) -> has_id (id e) r = false.
Proof.
  unfold unique_ids. rewrite map_app. cbn [map]. intros Hnd r Hr.
  apply NoDup_remove_2 in Hnd. apply not_true_is_false. intros Hid.
  apply has_id_eq in Hid. apply Hnd. rewrite <- map_app, <- Hid.
  now apply in_map.
Qed.

(** ** Statements, unfolded *)

Lemma db_update_unfold (env : Env) (cond : Memory -> bool)
  (set : Memory -> Result Exn Memory) (w : World) :
  db_update env cond set w =
  if fault env (statements w) then
    (Throw ConnectionError, advance 0 1 (table w) w)
  else
    match update_rows cond set (table w) with
    | Throw e => (Throw e, advance 0 1 (table w) w)
    | Ok (rows', returned) => (Ok returned, advance 0 1 rows' w)
    end.
Proof.
  unfold db_update, bind, statement, getTable, putTable, liftR, ret, advance.
  destruct (fault env (statements w)); [reflexivity|].
  cbn [table]. destruct (update_rows cond set (table w)) as [[rows' returned]|];
    reflexivity.
Qed.

Lemma db_delete_unfold (env : Env) (cond : Memory -> bool) (w : World) :
  db_delete env cond w =
  if fault env (statements w) then
    (Throw ConnectionError, advance 0 1 (table w) w)
  else
    (Ok tt, advance 0 1 (filter (fun r => negb (cond r)) (table w)) w).
Proof.
  unfold db_delete, bind, statement, getTable, putTable, advance.
  destruct (fault env (statements w)); reflexivity.
Qed.

Lemma getMemoryByKey_unfold (env : Env) (uid : Uuid) (k : jsstring) (w : World) :
  getMemoryByKey env uid k w =
  if fault env (statements w) then
    (Throw ConnectionError, advance 0 1 (table w) w)
  else
    match filter (same_user_key uid k) (table w) with
    | [] => (Ok None, advance 0 1 (table w) w)
    | r :: _ =>
        if fault env (S (statements w)) then
          (Throw ConnectionError, advance 1 2 (table w) w)
        else
          match update_rows (has_id (id r)) (touch (clock env (dates w)))
                  (table w) with
          | Throw e => (Throw e, advance 1 2 (table w) w)
          | Ok (rows', _) => (Ok (Some r), advance 1 2 rows' w)
          end
    end.
Proof.
  unfold getMemoryByKey. unfold bind at 1. rewrite db_select_unfold.
  destruct (fault env (statements w)); [reflexivity|].
  rewrite where_rows_user_key, order_rows_unordered. unfold limit_rows.
  cbn [Z.ltb Z.compare Z.to_nat]. change (Pos.to_nat 1) with 1%nat.
  destruct (filter _ (table w)) as [|r rest]; cbn [firstn]; [reflexivity|].
  unfold bind, newDate, ret. rewrite db_update_unfold.
  cbn [table statements dates inserts console advance Nat.add].
  destruct (fault env (S (statements w))); [reflexivity|].
  destruct (update_rows _ _ (table w)) as [[rows' returned]|]; reflexivity.
Qed.

(** ** saveMemory: failure and primary keys *)

(** X1. A [saveMemory] call that throws has written nothing: the table and
    the console are those of before. *)
Theorem saveMemory_failure_writes_nothing (env : Env)
  (params : CreateMemoryParams) (w w' : World) (error : Exn) :
  saveMemory env params w = (Throw error, w') ->
  table w' = table w /\ console w' = console w.
Proof.
  rewrite saveMemory_unfold. cbv zeta.
  destruct (fault env (statements w)); [intros H; inversion H; split; reflexivity|].
  destruct (filter _ (table w)) as [|e rest].
  - destruct (fault env (S (statements w)));
      [intros H; inversion H; split; reflexivity|].
    destruct (existsb _ (table w)); intros H; inversion H; split; reflexivity.
  - destruct (fault env (S (statements w)));
      [intros H; inversion H; split; reflexivity|].
    destruct (update_rows _ _ (table w)) as [[rows' returned]|];
      intros H; inversion H; split; reflexivity.
Qed.

Lemma saveMemory_failure_writes_nothing_witness :
  saveMemory unreachable (alice (lit "user-1")) stored_world
  = (Throw ConnectionError, advance 1 1 [stored_name] stored_world) /\
  table (advance 1 1 [stored_name] stored_world) = table stored_world.
Proof.
  split; [reflexivity|].
  apply (@saveMemory_failure_writes_nothing unreachable (alice (lit "user-1"))
           stored_world _ ConnectionError).
  reflexivity.
Defined.

Lemma update_rows_single_throw (cond : Memory -> bool)
  (set : Memory -> Result Exn Memory) (pre post : list Memory) (e : Memory)
  (err : Exn) :
  (forall r, In r pre -> cond r = false) ->
  (forall r, In r post -> cond r = false) ->
  cond e = true ->
  set e = Throw err ->
  update_rows cond set (pre ++ e :: post) = Throw err.
Proof.
  intros Hpre Hpost He Hset.
  induction pre as [|r pre IH].
  - cbn [app update_rows]. rewrite update_rows_none by exact Hpost.
    now rewrite He, Hset.
  - cbn [app update_rows]. rewrite IH by (intros; apply Hpre; now right).
    reflexivity.
Qed.

(** The table after a successful [saveMemory]: the returned row stands
    where the first row of the pair stood, or at the end. *)
Lemma saveMemory_placement (env : Env) (params : CreateMemoryParams)
  (w w1 : World) (m : Memory) :
  unique_ids (table w) ->
  saveMemory env params w = (Ok (Some m), w1) ->
  (exists pre post,
     table w1 = pre ++ m :: post /\
     (forall r, In r pre ->
        same_user_key (p_userId params) (p_key params) r = false)) /\
  unique_ids (table w1) /\
  same_user_key (p_userId params) (p_key params) m = true /\
  value m = p_value params /\
  (exists c, in_int4 c = true /\ accessCount m = toString c).
Proof.
  intros Hpk. rewrite saveMemory_unfold. cbv zeta.
  destruct (fault env (statements w)); [discriminate|].
  destruct (filter _ (table w)) as [|e rest] eqn:Hsel.
  - destruct (fault env (S (statements w))); [discriminate|].
    destruct (existsb _ (table w)) eqn:Hfresh; [discriminate|].
    intros H; inversion H; subst. cbn [table statements dates].
    split.
    { exists (table w), []. split; [reflexivity|].
      intros r Hr. apply not_true_is_false. intros Hm.
      assert (Hin : In r (filter (same_user_key (p_userId params) (p_key params))
                            (table w))) by (apply filter_In; auto).
      rewrite Hsel in Hin. destruct Hin. }
    split.
    { unfold unique_ids. rewrite map_app. cbn [map insert_values id].
      apply NoDup_app; [exact Hpk | repeat constructor; intros [] |].
      intros i Hi [<- | []]. apply in_map_iff in Hi. destruct Hi as [r [Hr Hin]].
      assert (existsb (has_id (uuid env (inserts w))) (table w) = true).
      { apply existsb_exists. exists r. split; [assumption | now apply has_id_eq]. }
      congruence. }
    split.
    { unfold same_user_key. cbn [insert_values userId key]. now rewrite !jseqb_refl. }
    split; [reflexivity|]. exists 1%Z. split; reflexivity.
  - destruct (fault env (S (statements w))); [discriminate|].
    destruct (filter_first_split _ _ Hsel) as [pre [post [Hrows [He Hpre]]]].
    rewrite Hrows in Hpk.
    pose proof (unique_ids_split _ _ _ Hpk) as Hother.
    rewrite Hrows.
    destruct (update_set params (importance_or_default params)
                (clock env (dates w)) e) as [e'|err] eqn:Hset.
    + rewrite (@update_rows_single (has_id (id e)) _ pre post e e');
        [| intros r Hr; apply Hother, in_or_app; now left
         | intros r Hr; apply Hother, in_or_app; now right
         | apply jseqb_refl | exact Hset].
      intros H; inversion H; subst. cbn [advance table statements dates].
      destruct (update_set_keeps _ _ _ _ Hset) as [Hid [Hu Hk]].
      split; [exists pre, post; split; [reflexivity | exact Hpre]|].
      split.
      { unfold unique_ids in *. rewrite map_app in *. cbn [map] in *.
        now rewrite Hid. }
      split; [unfold same_user_key in *; now rewrite Hu, Hk|].
      unfold update_set, cast_plus_one in Hset.
      destruct (cast_integer (accessCount e)) as [n|] eqn:Hn; [|discriminate].
      destruct (in_int4 (n + 1)) eqn:Hr; [|discriminate].
      inversion Hset; subst. cbn [value accessCount]. split; [reflexivity|].
      exists (n + 1)%Z. split; [assumption | reflexivity].
    + rewrite (@update_rows_single_throw (has_id (id e)) _ pre post e err);
        [discriminate
        | intros r Hr; apply Hother, in_or_app; now left
        | intros r Hr; apply Hother, in_or_app; now right
        | apply jseqb_refl | exact Hset].
Qed.

(** ** getMemoryByKey *)

(** X2. Insert, then look up: after [saveMemory] returned a row, a
    [getMemoryByKey] for the same user and key that reaches the database
    returns that very row, holding the value just saved, unless the access
    counter of the row has reached 2147483647, the largest [integer]. *)
Theorem getMemoryByKey_after_saveMemory (env : Env)
  (params : CreateMemoryParams) (w w1 : World) (m : Memory) :
  unique_ids (table w) ->
  saveMemory env params w = (Ok (Some m), w1) ->
  fault env (statements w1) = false ->
  fault env (S (statements w1)) = false ->
  jseqb (accessCount m) (toString int4_max) = false ->
  fst (getMemoryByKey env (p_userId params) (p_key params) w1) = Ok (Some m) /\
  value m = p_value params.
Proof.
  intros Hpk Hsave Hf1 Hf2 Hmax.
  destruct (@saveMemory_placement env params w w1 m Hpk Hsave)
    as [[pre [post [Hrows Hpre]]] [Hpk1 [Hm [Hv [c [Hin Hc]]]]]].
  split; [|exact Hv].
  rewrite getMemoryByKey_unfold, Hf1, Hrows, filter_app.
  rewrite (filter_none _ pre Hpre). cbn [app filter]. rewrite Hm, Hf2.
  rewrite <- Hrows.
  assert (Htouch : exists m', touch (clock env (dates w1)) m = Ok m').
  { unfold touch, cast_plus_one. rewrite Hc, (cast_integer_toString _ Hin).
    assert (Hne : c <> int4_max).
    { intros ->. rewrite Hc, jseqb_refl in Hmax. discriminate. }
    assert (Hnext : in_int4 (c + 1) = true).
    { unfold in_int4, int4_min, int4_max in *.
      apply andb_true_iff in Hin. destruct Hin as [Hlo Hhi].
      apply Z.leb_le in Hlo, Hhi. apply andb_true_iff. split; apply Z.leb_le; lia. }
    rewrite Hnext. eexists. reflexivity. }
  destruct Htouch as [m' Hm'].
  rewrite Hrows in Hpk1. pose proof (unique_ids_split _ _ _ Hpk1) as Hother.
  rewrite Hrows.
  rewrite (@update_rows_single (has_id (id m)) _ pre post m m');
    [reflexivity
    | intros r Hr; apply Hother, in_or_app; now left
    | intros r Hr; apply Hother, in_or_app; now right
    | apply jseqb_refl | exact Hm'].
Qed.

Lemma getMemoryByKey_after_saveMemory_witness :
  exists m w1,
    saveMemory quiet (alice (lit "user-1")) empty_world = (Ok (Some m), w1) /\
    fst (getMemoryByKey quiet (lit "user-1") (p_key (alice (lit "user-1"))) w1)
    = Ok (Some m) /\
    value m = p_value (alice (lit "user-1")).
Proof.
  eexists. eexists. split; [vm_compute; reflexivity|].
  eapply (@getMemoryByKey_after_saveMemory quiet (alice (lit "user-1")) empty_world).
  - constructor.
  - vm_compute. reflexivity.
  - reflexivity.
  - reflexivity.
  - vm_compute. reflexivity.
Defined.

(** X3. What [getMemoryByKey] returns: [null] exactly when the user has no
    row under the key, and then nothing is written; otherwise a row of the
    table as it was read, of that user and key, that is, before the access
    is counted. *)
Theorem getMemoryByKey_result (env : Env) (uid : Uuid) (k : jsstring)
  (w w' : World) (found : option Memory) :
  getMemoryByKey env uid k w = (Ok found, w') ->
  (found = None <-> count_user_key uid k (table w) = 0) /\
  (found = None -> table w' = table w) /\
  (forall m, found = Some m -> In m (table w) /\ userId m = uid /\ key m = k).
Proof.
  rewrite getMemoryByKey_unfold. unfold count_user_key.
  destruct (fault env (statements w)); [discriminate|].
  destruct (filter _ (table w)) as [|r rest] eqn:Hsel.
  - intros H; inversion H; subst. repeat split; auto; discriminate.
  - destruct (fault env (S (statements w))); [discriminate|].
    destruct (update_rows _ _ (table w)) as [[rows' returned]|]; [|discriminate].
    intros H; inversion H; subst. split; [split; discriminate|].
    split; [discriminate|]. intros m Hm. inversion Hm; subst.
    assert (Hin : In m (filter (same_user_key uid k) (table w)))
      by (rewrite Hsel; now left).
    apply filter_In in Hin. destruct Hin as [Hin Hsame].
    apply same_user_key_eq in Hsame. tauto.
Qed.

Lemma getMemoryByKey_result_witness :
  exists w',
    (Some stored_name = None <->
     count_user_key (lit "user-1") (lit "name") (table stored_world) = 0) /\
    (Some stored_name = None -> table w' = table stored_world) /\
    (forall m, Some stored_name = Some m ->
       In m (table stored_world) /\ userId m = lit "user-1" /\ key m = lit "name").
Proof.
  eexists.
  apply (@getMemoryByKey_result quiet (lit "user-1") (lit "name") stored_world).
  vm_compute. reflexivity.
Defined.

(** ** deleteMemory, deleteAllMemories *)

(** X6. [deleteMemory(id, userId)] removes nothing but rows that carry
    both the id and the user: a row of another user stays where it is even
    when the id given is its own, the rows left keep their order, and when
    the call returns no row of that id and user is left. *)
Theorem deleteMemory_removes_only_the_users_row (env : Env) (i uid : Uuid)
  (w : World) :
  let w' := snd (deleteMemory env i uid w) in
  (forall r, In r (table w) -> userId r <> uid -> In r (table w')) /\
  (forall r, In r (table w) -> id r <> i -> In r (table w')) /\
  (forall r, In r (table w') -> In r (table w)) /\
  (fst (deleteMemory env i uid w) = Ok tt ->
   forall r, In r (table w') -> ~ (id r = i /\ userId r = uid)).
Proof.
  unfold deleteMemory. rewrite db_delete_unfold.
  destruct (fault env (statements w)); cbn [snd fst advance table].
  - repeat split; auto. discriminate.
  - assert (Hcond : forall r, has_id_of_user i uid r = true <->
                              id r = i /\ userId r = uid).
    { intros r. unfold has_id_of_user. now rewrite andb_true_iff, !jseqb_eq. }
    repeat split.
    + intros r Hin Hu. apply filter_In. split; [assumption|].
      apply negb_true_iff, not_true_is_false. rewrite Hcond. tauto.
    + intros r Hin Hi. apply filter_In. split; [assumption|].
      apply negb_true_iff, not_true_is_false. rewrite Hcond. tauto.
    + intros r Hin. now apply filter_In in Hin.
    + intros _ r Hin Hboth. apply filter_In in Hin. destruct Hin as [_ Hneg].
      apply negb_true_iff in Hneg. apply Hcond in Hboth. congruence.
Qed.

Lemma deleteMemory_removes_only_the_users_row_witness :
  In importance_nine
    (table (snd (deleteMemory quiet (lit "id-9") (lit "user-2") ranked_world))).
Proof.
  destruct (@deleteMemory_removes_only_the_users_row quiet (lit "id-9")
              (lit "user-2") ranked_world) as [Hothers _].
  apply Hothers; [right; left; reflexivity | vm_compute; discriminate].
Defined.

(** The [WHERE] clause of [getMemoriesByUserId] keeps no row when the user
    has none: the user is compared first, so no importance is cast. *)
Lemma where_rows_no_row_of_user (uid : Uuid) (options : option QueryOptions) :
  forall rows,
    (forall r, In r rows -> userId r <> uid) ->
    where_rows (query_conditions uid options) rows = Ok [].
Proof.
  induction rows as [|r rows IH]; intros H; [reflexivity|].
  cbn [where_rows]. unfold query_conditions at 1.
  assert (Hu : jseqb (userId r) uid = false).
  { apply not_true_is_false. rewrite jseqb_eq. apply H. now left. }
  rewrite Hu. cbn [negb]. rewrite IH by (intros; apply H; now right).
  reflexivity.
Qed.

(** X7. [deleteAllMemories(userId)], then [getMemoriesByUserId]: after
    the deletion returned, the query of the same user returns the empty
    list, whatever category, importance and (non-negative) limit are asked
    for, and writes nothing: the conditions are read from left to right, so
    the importance of a row of another user is never cast.  The rows of
    every other user are still there. *)
Theorem deleteAllMemories_then_getMemoriesByUserId (env : Env) (uid : Uuid)
  (options : option QueryOptions) (w w1 : World) :
  deleteAllMemories env uid w = (Ok tt, w1) ->
  fault env (statements w1) = false ->
  (0 <= limit_or_default options)%Z ->
  getMemoriesByUserId env uid options w1
  = (Ok [], advance 0 1 (table w1) w1) /\
  (forall r, In r (table w) -> userId r <> uid -> In r (table w1)).
Proof.
  unfold deleteAllMemories. rewrite db_delete_unfold.
  destruct (fault env (statements w)); [discriminate|].
  intros H Hf Hlimit. inversion H; subst. clear H.
  cbn [advance table statements] in *.
  split.
  - unfold getMemoriesByUserId. unfold bind at 1. rewrite db_select_unfold.
    cbn [advance table statements]. rewrite Hf.
    rewrite where_rows_no_row_of_user.
    + unfold limit_rows, order_rows. cbn [fold_right].
      destruct (Z.ltb (limit_or_default options) 0); [reflexivity|].
      rewrite firstn_nil. reflexivity.
    + intros r Hin Hu. apply filter_In in Hin. destruct Hin as [_ Hneg].
      apply negb_true_iff in Hneg. unfold of_user in Hneg.
      apply jseqb_eq in Hu. congruence.
  - intros r Hin Hu. apply filter_In. split; [assumption|].
    apply negb_true_iff, not_true_is_false. unfold of_user. now rewrite jseqb_eq.
Qed.

Lemma deleteAllMemories_then_getMemoriesByUserId_witness :
  getMemoriesByUserId quiet (lit "user-1") (Some default_policy)
    (advance 0 1 [] ranked_world)
  = (Ok [], advance 0 1 [] (advance 0 1 [] ranked_world)) /\
  (forall r, In r (table ranked_world) -> userId r <> lit "user-1" -> In r []).
Proof.
  apply (@deleteAllMemories_then_getMemoriesByUserId quiet (lit "user-1")
           (Some default_policy) ranked_world (advance 0 1 [] ranked_world)).
  - reflexivity.
  - reflexivity.
  - vm_compute. discriminate.
Defined.

(** ** extractMemoriesFromConversation: no rule, and the invariant *)

Lemma extract_loop_no_match (env : Env) (params : ExtractParams) :
  forall ps savedMemories w,
    filter (rule_matches (userMessage params)) ps = [] ->
    extract_loop env ps params savedMemories w = (Ok savedMemories, w).
Proof.
  induction ps as [|pattern rest IH]; intros savedMemories w H; [reflexivity|].
  cbn [extract_loop filter] in *. unfold rule_matches at 1 in H.
  destruct (regex pattern (userMessage params)) as [capture|];
    [destruct (truthy capture); [discriminate|]|]; now apply IH.
Qed.

(** X8. A user message that none of the four rules matches costs
    nothing: [extractMemoriesFromConversation] returns the empty list
    without a statement, a reading of the clock or a line on the console. *)
Theorem extractMemoriesFromConversation_without_a_match (env : Env)
  (params : ExtractParams) (w : World) :
  matching_rules (userMessage params) = [] ->
  extractMemoriesFromConversation env params w = (Ok [], w).
Proof. intros H. now apply extract_loop_no_match. Qed.

Lemma extractMemoriesFromConversation_without_a_match_witness :
  extractMemoriesFromConversation unreachable
    {| e_userId := lit "user-1"; e_chatId := lit "chat-1";
       userMessage := lit "What is the weather like today?";
       aiResponse := lit "my name is Claude" |} stored_world
  = (Ok [], stored_world).
Proof.
  apply (@extractMemoriesFromConversation_without_a_match unreachable
           {| e_userId := lit "user-1"; e_chatId := lit "chat-1";
              userMessage := lit "What is the weather like today?";
              aiResponse := lit "my name is Claude" |} stored_world).
  vm_compute. reflexivity.
Defined.

Lemma extract_loop_keeps_unique (env : Env) (params : ExtractParams) :
  forall ps savedMemories w,
    unique_user_key (table w) ->
    unique_user_key (table (snd (extract_loop env ps params savedMemories w))).
Proof.
  induction ps as [|pattern rest IH]; intros savedMemories w Hw; [exact Hw|].
  cbn [extract_loop].
  destruct (regex pattern (userMessage params)) as [capture|];
    [destruct (truthy capture)|]; try now apply IH.
  unfold bind at 1, try_catch, newDate. unfold bind at 1. unfold bind at 1.
  set (w0 := {| table := table w; statements := statements w;
                dates := S (dates w); inserts := inserts w;
                console := console w |}).
  set (call := rule_params env params pattern capture (clock env (dates w))).
  pose proof (@saveMemory_keeps_unique env call w0 Hw) as Hsaved.
  destruct (saveMemory env call w0) as [[mem|error] w1]; cbn [snd] in Hsaved.
  - unfold ret. now apply IH.
  - unfold console_error, bind, ret. now apply IH.
Qed.

(** X9. [extractMemoriesFromConversation] keeps the table at one row
    for every user and key, whichever rules fire and whichever writes
    fail. *)
Theorem extractMemoriesFromConversation_keeps_one_row_per_key (env : Env)
  (params : ExtractParams) (w : World) :
  unique_user_key (table w) ->
  unique_user_key (table (snd (extractMemoriesFromConversation env params w))).
Proof. apply extract_loop_keeps_unique. Qed.

Lemma extractMemoriesFromConversation_keeps_one_row_per_key_witness :
  unique_user_key
    (table (snd (extractMemoriesFromConversation first_statement_fails
                   bob_prefers_tea empty_world))).
Proof.
  apply (@extractMemoriesFromConversation_keeps_one_row_per_key
           first_statement_fails bob_prefers_tea empty_world).
  intros u k. cbn. lia.
Defined.

(** ** The patterns of extractMemoriesFromConversation *)

Lemma takeWhile_split (f : N -> bool) :
  forall s, exists post,
    s = takeWhile f s ++ post /\ forallb f (takeWhile f s) = true /\
    stops_at f post.
Proof.
  induction s as [|c s [post [Hs [Hall Hstop]]]]; [exists []; now repeat split|].
  cbn [takeWhile]. destruct (f c) eqn:Hc.
  - exists post. cbn [app forallb]. rewrite Hc, Hall. repeat split; [|assumption].
    now rewrite <- Hs.
  - exists (c :: s). now repeat split.
Qed.

Lemma plus_capture (f : N -> bool) (s c : jsstring) :
  plus f s = Some c ->
  c <> [] /\ forallb f c = true /\ exists post, s = c ++ post /\ stops_at f post.
Proof.
  unfold plus. destruct (takeWhile_split f s) as [post [Hs [Hall Hstop]]].
  destruct (takeWhile f s) as [|x run]; [discriminate|].
  intros H; inversion H; subst c. split; [discriminate|]. split; [assumption|].
  exists post. split; assumption.
Qed.

Lemma literal_ci_split :
  forall p s rest,
    literal_ci p s = Some rest ->
    exists m, s = m ++ rest /\ map canonicalize m = map canonicalize p.
Proof.
  induction p as [|c p IH]; intros s rest H.
  - inversion H; subst. now exists [].
  - cbn [literal_ci] in H. destruct s as [|d s]; [discriminate|].
    destruct (N.eqb (canonicalize c) (canonicalize d)) eqn:E; [|discriminate].
    apply N.eqb_eq in E. destruct (IH _ _ H) as [m [Hs Hm]].
    exists (d :: m). cbn [app map]. now rewrite Hs, Hm, E.
Qed.

Lemma search_split (at_start : jsstring -> option jsstring) :
  forall s c,
    search at_start s = Some c ->
    exists pre t, s = pre ++ t /\ at_start t = Some c.
Proof.
  induction s as [|x s IH]; intros c H; cbn [search] in H.
  - destruct (at_start []) eqn:E; [|discriminate]. inversion H; subst.
    now exists [], [].
  - destruct (at_start (x :: s)) eqn:E.
    + inversion H; subst. now exists [], (x :: s).
    + destruct (IH _ H) as [pre [t [Hs Ht]]]. exists (x :: pre), t.
      now rewrite Hs.
Qed.

Lemma then_plus_capture (f : N -> bool) (p t c : jsstring) :
  then_plus f (literal_ci p t) = Some c ->
  c <> [] /\ forallb f c = true /\
  exists m post, t = m ++ c ++ post /\ map canonicalize m = map canonicalize p /\
                 stops_at f post.
Proof.
  unfold then_plus. destruct (literal_ci p t) as [rest|] eqn:Hlit; [|discriminate].
  intros H. destruct (plus_capture _ _ H) as [Hne [Hall [post [Hrest Hstop]]]].
  destruct (literal_ci_split _ _ Hlit) as [m [Ht Hm]].
  split; [assumption|]. split; [assumption|].
  exists m, post. now rewrite Ht, Hrest.
Qed.

(** X10. What the rules for the name, the location and the preference
    capture: a non-empty run of word characters that stands in the message
    right after the literal of the rule, read ignoring case, and that ends
    where the message ends or the next character is not a word character. *)
Theorem literal_then_word_capture (p s capture : jsstring) :
  literal_then_word p s = Some capture ->
  capture <> [] /\ forallb isWord capture = true /\
  exists post, follows_literal p capture s post /\ stops_at isWord post.
Proof.
  unfold literal_then_word. intros H.
  destruct (search_split _ _ H) as [pre [t [Hs Ht]]].
  destruct (then_plus_capture _ _ _ Ht) as [Hne [Hall [m [post [Hm [Hcan Hstop]]]]]].
  split; [assumption|]. split; [assumption|].
  exists post. split; [|assumption]. exists pre, m. now rewrite Hs, Hm.
Qed.

Lemma literal_then_word_capture_witness :
  lit "Bob" <> [] /\ forallb isWord (lit "Bob") = true /\
  exists post,
    follows_literal (lit "my name is ") (lit "Bob")
      (lit "Hi, My Name Is Bob Smith") post /\
    stops_at isWord post.
Proof.
  apply (@literal_then_word_capture (lit "my name is ")
           (lit "Hi, My Name Is Bob Smith") (lit "Bob")).
  reflexivity.
Defined.

Lemma map_canonicalize_app (a b p q : jsstring) :
  map canonicalize a = map canonicalize p ->
  map canonicalize b = map canonicalize q ->
  map canonicalize (a ++ b) = map canonicalize (p ++ q).
Proof. intros Ha Hb. now rewrite !map_app, Ha, Hb. Qed.

(** X11. What the rule for the job captures: a non-empty piece of the
    message without a line terminator, running to the end of its line, that
    follows "I work as " (case ignored); an article "a " or "an " that is
    itself followed by text on the line is not part of the capture. *)
Theorem work_as_capture (s capture : jsstring) :
  work_as s = Some capture ->
  capture <> [] /\ forallb isDot capture = true /\
  exists post,
    stops_at isDot post /\
    (follows_literal (lit "I work as a ") capture s post \/
     follows_literal (lit "I work as an ") capture s post \/
     follows_literal (lit "I work as ") capture s post).
Proof.
  unfold work_as. intros H.
  destruct (search_split _ _ H) as [pre [t [Hs Ht]]]. clear H.
  destruct (literal_ci (lit "I work as ") t) as [rest|] eqn:Hlit; [|discriminate].
  destruct (literal_ci_split _ _ Hlit) as [m [Hm Hcan]].
  destruct (then_plus isDot (literal_ci (lit "a ") rest)) as [c1|] eqn:H1.
  - inversion Ht; subst c1.
    destruct (then_plus_capture _ _ _ H1) as [Hne [Hall [m1 [post [Hr [Hc1 Hstop]]]]]].
    split; [assumption|]. split; [assumption|]. exists post. split; [assumption|].
    left. exists pre, (m ++ m1). split.
    + now rewrite Hs, Hm, Hr, <- !app_assoc.
    + now apply (@map_canonicalize_app m m1 (lit "I work as ") (lit "a ")).
  - destruct (then_plus isDot (literal_ci (lit "an ") rest)) as [c2|] eqn:H2.
    + inversion Ht; subst c2.
      destruct (then_plus_capture _ _ _ H2) as [Hne [Hall [m2 [post [Hr [Hc2 Hstop]]]]]].
      split; [assumption|]. split; [assumption|]. exists post. split; [assumption|].
      right; left. exists pre, (m ++ m2). split.
      * now rewrite Hs, Hm, Hr, <- !app_assoc.
      * now apply (@map_canonicalize_app m m2 (lit "I work as ") (lit "an ")).
    + destruct (plus_capture _ _ Ht) as [Hne [Hall [post [Hr Hstop]]]].
      split; [assumption|]. split; [assumption|]. exists post. split; [assumption|].
      right; right. exists pre, m. split; [|assumption].
      now rewrite Hs, Hm, Hr.
Qed.

Lemma work_as_capture_witness :
  lit "engineer at ACME" <> [] /\ forallb isDot (lit "engineer at ACME") = true /\
  exists post,
    stops_at isDot post /\
    (follows_literal (lit "I work as a ") (lit "engineer at ACME")
       (lit "i work as an engineer at ACME" ++ nl ++ lit "and more") post \/
     follows_literal (lit "I work as an ") (lit "engineer at ACME")
       (lit "i work as an engineer at ACME" ++ nl ++ lit "and more") post \/
     follows_literal (lit "I work as ") (lit "engineer at ACME")
       (lit "i work as an engineer at ACME" ++ nl ++ lit "and more") post).
Proof.
  apply (@work_as_capture
           (lit "i work as an engineer at ACME" ++ nl ++ lit "and more")
           (lit "engineer at ACME")).
  reflexivity.
Defined.

(** ** trim *)

Lemma trimStart_app (a b : jsstring) (c : N) :
  isTrimSpace c = false ->
  trimStart (a ++ c :: b) = trimStart a ++ c :: b.
Proof.
  intros Hc. induction a as [|h a IH]; cbn [app trimStart].
  - now rewrite Hc.
  - destruct (isTrimSpace h); [exact IH | reflexivity].
Qed.

Lemma trimEnd_app (a b : jsstring) (c : N) :
  isTrimSpace c = false ->
  trimEnd (a ++ c :: b) = a ++ c :: trimEnd b.
Proof.
  intros Hc. unfold trimEnd. rewrite rev_app_distr. cbn [rev].
  rewrite <- app_assoc. cbn [app]. rewrite trimStart_app by assumption.
  rewrite rev_app_distr. cbn [rev]. rewrite rev_involutive, <- app_assoc.
  reflexivity.
Qed.

Lemma trimStart_head (s : jsstring) :
  match trimStart s with
  | [] => True
  | c :: _ => isTrimSpace c = false
  end.
Proof.
  induction s as [|h s IH]; cbn [trimStart]; [exact I|].
  destruct (isTrimSpace h) eqn:E; [exact IH | exact E].
Qed.

Lemma trimStart_fixed (s : jsstring) :
  match s with [] => True | c :: _ => isTrimSpace c = false end ->
  trimStart s = s.
Proof. destruct s as [|c s]; [reflexivity|]. cbn [trimStart]. now intros ->. Qed.

Lemma trimStart_idempotent (s : jsstring) : trimStart (trimStart s) = trimStart s.
Proof. apply trimStart_fixed, trimStart_head. Qed.

Lemma trimEnd_idempotent (s : jsstring) : trimEnd (trimEnd s) = trimEnd s.
Proof.
  unfold trimEnd. now rewrite rev_involutive, trimStart_idempotent.
Qed.

Lemma trim_idempotent (s : jsstring) : trim (trim s) = trim s.
Proof.
  unfold trim. pose proof (trimStart_head s) as Hhead.
  destruct (trimStart s) as [|c t]; [reflexivity|].
  pose proof (@trimEnd_app [] t c Hhead) as E1. cbn [app] in E1.
  rewrite E1. cbn [trimStart]. rewrite Hhead.
  pose proof (@trimEnd_app [] (trimEnd t) c Hhead) as E2. cbn [app] in E2.
  now rewrite E2, trimEnd_idempotent.
Qed.

(** ** formatMemoriesForContext and systemPrompt *)

Lemma add_category_head (l : list MemoryCategory) :
  forall c seen, exists tail, fold_left add_category l (c :: seen) = c :: tail.
Proof.
  induction l as [|x l IH]; intros c seen; cbn [fold_left].
  - now exists seen.
  - unfold add_category at 2. destruct (existsb _ (c :: seen)); apply IH.
Qed.

Lemma first_occurrences_head (m : Memory) (memories : list Memory) :
  exists tail, first_occurrences (m :: memories) = category m :: tail.
Proof.
  unfold first_occurrences. cbn [map fold_left]. apply add_category_head.
Qed.

Lemma categoryTitles_head (c : MemoryCategory) :
  exists x t, categoryTitles c = x :: t /\ isTrimSpace x = false.
Proof. destruct c; eexists; eexists; split; reflexivity. Qed.

(** The text under the title starts with the heading of a first section. *)
Lemma formatMemoriesForContext_head (m : Memory) (memories : list Memory) :
  exists x t,
    isTrimSpace x = false /\
    formatMemoriesForContext (m :: memories)
    = (lit "## User Memory" ++ nl ++ nl ++ lit "### ") ++ x :: trimEnd t.
Proof.
  unfold formatMemoriesForContext. cbv zeta.
  rewrite group_memories_spec, fold_format_entry.
  destruct (first_occurrences_head m memories) as [tail ->].
  cbn [map concat]. unfold section at 1.
  destruct (categoryTitles_head (category m)) as [x [t [-> Hx]]].
  exists x. eexists. split; [exact Hx|].
  unfold trim.
  change (trimStart ((lit "## User Memory" ++ nl ++ nl) ++ ?r))
    with ((lit "## User Memory" ++ nl ++ nl) ++ r).
  rewrite <- !app_assoc. cbn [app].
  match goal with
  | |- trimEnd ?s = _ =>
      change s with ((lit "## User Memory" ++ nl ++ nl ++ lit "### ")
                     ++ x :: (t ++ nl ++ concat (map item_line
                                (filter (in_category (category m)) (m :: memories)))
                              ++ nl ++ concat (map (section (m :: memories)) tail)))
  end.
  rewrite trimEnd_app by assumption. reflexivity.
Qed.

(** X12. The text [formatMemoriesForContext] builds from a non-empty list
    opens with the title and the heading of a first section, and it has
    neither leading nor trailing white space, however the keys and values
    end; the empty list gives the empty string. *)
Theorem formatMemoriesForContext_titled_and_trimmed (memories : list Memory) :
  match memories with
  | [] => formatMemoriesForContext memories = []
  | _ :: _ =>
      startsWith (formatMemoriesForContext memories)
        (lit "## User Memory" ++ nl ++ nl ++ lit "### ") = true
  end /\
  trim (formatMemoriesForContext memories) = formatMemoriesForContext memories.
Proof.
  destruct memories as [|m memories]; [split; reflexivity|]. split.
  - destruct (formatMemoriesForContext_head m memories) as [x [t [_ ->]]].
    apply startsWith_app.
  - unfold formatMemoriesForContext. cbv zeta. apply trim_idempotent.
Qed.

(** X13. The two steps of the chat route put together: with no memory
    the system prompt is the base prompt as it is, without the blank line;
    with memories it is the base prompt, one blank line and the formatted
    memories. *)
Theorem systemPrompt_with_formatted_memories (basePrompt : jsstring)
  (memories : list Memory) :
  Prompts.systemPrompt basePrompt (Some (formatMemoriesForContext memories))
  = match memories with
    | [] => basePrompt
    | _ :: _ => basePrompt ++ nl ++ nl ++ formatMemoriesForContext memories
    end.
Proof.
  destruct memories as [|m memories]; [reflexivity|].
  unfold Prompts.systemPrompt.
  destruct (formatMemoriesForContext_head m memories) as [x [t [_ ->]]].
  reflexivity.
Qed.

(** ** extractTextFromPDF: the text it returns *)

Lemma trim_nonempty (s : jsstring) :
  (length (trim s) =? 0)%nat = false -> trim s <> [].
Proof. intros H E. rewrite E in H. discriminate. Qed.

(** X14. Whenever [extractTextFromPDF] returns, the text is not empty
    and has no white space at either end: it is the trimmed text of the
    parser, or, when the parser found no text or white space only, the
    placeholder sentence. *)
Theorem extractTextFromPDF_returns_text
  (pdfParse : Buffer -> Result JsError PdfData) (buffer : Buffer)
  (extracted : jsstring) :
  extractTextFromPDF pdfParse buffer = Ok extracted ->
  extracted <> [] /\ trim extracted = extracted /\
  (extracted = placeholder \/
   exists data fullText,
     pdfParse buffer = Ok data /\ text data = Some fullText /\
     extracted = trim fullText).
Proof.
  unfold extractTextFromPDF.
  destruct (pdfParse buffer) as [data|error]; [|discriminate].
  assert (Hplace : placeholder <> [] /\ trim placeholder = placeholder)
    by (split; [discriminate | reflexivity]).
  destruct (text data) as [fullText|] eqn:Htext.
  - destruct (negb (truthy fullText) || (length (trim fullText) =? 0)%nat) eqn:E;
      intros H; inversion H; subst.
    + destruct Hplace. repeat split; auto.
    + apply orb_false_iff in E. destruct E as [_ E].
      split; [now apply trim_nonempty|]. split; [apply trim_idempotent|].
      right. exists data, fullText. auto.
  - intros H; inversion H; subst. destruct Hplace. repeat split; auto.
Qed.

Lemma extractTextFromPDF_returns_text_witness :
  lit "Hello" <> [] /\ trim (lit "Hello") = lit "Hello" /\
  (lit "Hello" = placeholder \/
   exists data fullText,
     reading_parser [x25; x50; x44; x46] = Ok data /\ text data = Some fullText /\
     lit "Hello" = trim fullText).
Proof.
  apply (@extractTextFromPDF_returns_text reading_parser [x25; x50; x44; x46]
           (lit "Hello")).
  reflexivity.
Defined.

(** ** extractTextFromTextFile: ASCII and lengths *)

Lemma utf16_small (cp : N) : N.leb cp 127 = true -> utf16 cp = [cp].
Proof.
  intros H. apply N.leb_le in H. unfold utf16.
  destruct (N.ltb_spec cp 65536); [reflexivity | lia].
Qed.

Lemma utf16_length (cp : N) : length (utf16 cp) <= 2.
Proof. unfold utf16. destruct (N.ltb cp 65536); cbn [length]; lia. Qed.

Lemma decode_ascii :
  forall buffer,
    ascii_only buffer = true ->
    flat_map utf16 (decode idle buffer) = map Byte.to_N buffer.
Proof.
  induction buffer as [|b rest IH]; intros H; [reflexivity|].
  cbn [ascii_only forallb] in H. apply andb_true_iff in H. destruct H as [Hb Hrest].
  rewrite decode_idle_cons. unfold lead. rewrite Hb.
  cbn [flat_map map]. rewrite (utf16_small _ Hb). cbn [app].
  now rewrite IH.
Qed.

(** X16. A text file of ASCII bytes is read as it is: the string has
    one character per byte, with the byte as its code. *)
Theorem extractTextFromTextFile_ascii (buffer : Buffer) :
  ascii_only buffer = true ->
  extractTextFromTextFile buffer = Ok (map Byte.to_N buffer).
Proof.
  intros H. unfold extractTextFromTextFile, Buffer_toString_utf8.
  now rewrite decode_ascii.
Qed.

Lemma extractTextFromTextFile_ascii_witness :
  extractTextFromTextFile [x68; x69; x0a] = Ok (lit "hi" ++ nl).
Proof.
  apply (@extractTextFromTextFile_ascii [x68; x69; x0a]). reflexivity.
Defined.

Lemma lead_cases (v : N) :
  match lead v with
  | Emit cp => N.leb cp 127 = true
  | Begin st => bytes_needed st <> 0
  | Malformed => True
  end.
Proof.
  unfold lead. destruct (N.leb v 127) eqn:E; [exact E|].
  destruct (N.leb 194 v && N.leb v 223); [cbn; discriminate|].
  destruct (N.leb 224 v && N.leb v 239); [cbn; discriminate|].
  destruct (N.leb 240 v && N.leb v 244); [cbn; discriminate | exact I].
Qed.

Lemma decode_length :
  forall bs st,
    length (flat_map utf16 (decode st bs)) <= length bs + open_sequence st.
Proof.
  induction bs as [|b rest IH]; intros st; unfold open_sequence.
  - cbn [decode]. destruct (bytes_needed st); cbn; lia.
  - assert (Hlead : length (flat_map utf16
                      match lead (Byte.to_N b) with
                      | Emit cp => cp :: decode idle rest
                      | Begin st' => decode st' rest
                      | Malformed => REPLACEMENT :: decode idle rest
                      end) <= S (length rest)).
    { pose proof (lead_cases (Byte.to_N b)) as Hc.
      destruct (lead (Byte.to_N b)) as [cp|st'|].
      - cbn [flat_map]. rewrite (utf16_small _ Hc). cbn [app length].
        specialize (IH idle). unfold open_sequence in IH. cbn in IH. lia.
      - specialize (IH st'). unfold open_sequence in IH.
        destruct (bytes_needed st'); [congruence | lia].
      - cbn [flat_map]. change (utf16 REPLACEMENT) with [REPLACEMENT].
        cbn [app length]. specialize (IH idle). unfold open_sequence in IH.
        cbn in IH. lia. }
    cbn [decode length]. destruct (bytes_needed st) as [|k] eqn:Hk.
    + lia.
    + destruct (N.leb (lower st) (Byte.to_N b) && N.leb (Byte.to_N b) (upper st)).
      * cbv zeta. destruct k as [|k'].
        -- cbn [flat_map]. rewrite length_app.
           pose proof (utf16_length
                         (N.lor (N.shiftl (code_point st) 6)
                            (N.land (Byte.to_N b) 63))).
           specialize (IH idle). unfold open_sequence in IH. cbn in IH. lia.
        -- match goal with
           | |- context [decode ?s rest] => specialize (IH s)
           end.
           unfold open_sequence in IH. cbn [bytes_needed] in IH. lia.
      * cbn [flat_map]. change (utf16 REPLACEMENT) with [REPLACEMENT].
        cbn [app length]. lia.
Qed.

(** X17. The string [extractTextFromTextFile] returns never has more
    UTF-16 code units than the file has bytes, whether the bytes are
    well-formed UTF-8 or not. *)
Theorem extractTextFromTextFile_length (buffer : Buffer) :
  exists s, extractTextFromTextFile buffer = Ok s /\ length s <= length buffer.
Proof.
  eexists. split; [reflexivity|].
  pose proof (decode_length buffer idle) as H. unfold open_sequence in H.
  cbn [idle bytes_needed] in H. lia.
Qed.

Lemma extractTextFromTextFile_valid_utf8_witness :
  extractTextFromTextFile [x68; xc3; xa9; xf0; x9f; x98; x80]
  = Ok (flat_map utf16 [104; 233; 128512]%N).
Proof.
  apply (@extractTextFromTextFile_valid_utf8 [x68; xc3; xa9; xf0; x9f; x98; x80]
           [104; 233; 128512]%N).
  reflexivity.
Defined.

(** ** The two passes of the chat route *)

Lemma processPart_settled (part : ChatRoute.ModelPart) :
  ChatRoute.is_inline_image_file (ChatRoute.processPart part) = false.
Proof.
  destruct part as [t|[d|] mt fn|im|ty]; try reflexivity.
  cbn [ChatRoute.processPart].
  destruct (startsWith d (lit "data:image/")) eqn:E; [reflexivity|].
  cbn [ChatRoute.is_inline_image_file]. exact E.
Qed.

Lemma processPart_fixed (part : ChatRoute.ModelPart) :
  ChatRoute.is_inline_image_file part = false ->
  ChatRoute.processPart part = part.
Proof.
  destruct part as [t|[d|] mt fn|im|ty]; try reflexivity.
  cbn [ChatRoute.is_inline_image_file ChatRoute.processPart]. now intros ->.
Qed.

Lemma processMessage_idempotent (msg : ChatRoute.ModelMessage) :
  ChatRoute.processMessage (ChatRoute.processMessage msg)
  = ChatRoute.processMessage msg.
Proof.
  unfold ChatRoute.processMessage.
  destruct (ChatRoute.content msg) as [s|ps] eqn:Hc.
  - now rewrite Hc.
  - cbn [ChatRoute.content ChatRoute.role]. do 2 f_equal.
    rewrite map_map. apply map_ext. intros p.
    apply processPart_fixed, processPart_settled.
Qed.

(** X18. After the pass over the model messages no message carries a
    file part with inline image data any more, and a second run of the pass
    changes nothing. *)
Theorem processedModelMessages_settles (msgs : list ChatRoute.ModelMessage) :
  ChatRoute.processedModelMessages (ChatRoute.processedModelMessages msgs)
  = ChatRoute.processedModelMessages msgs /\
  Forall (fun msg =>
            match ChatRoute.content msg with
            | ChatRoute.ContentParts ps =>
                Forall (fun p => ChatRoute.is_inline_image_file p = false) ps
            | ChatRoute.ContentString _ => True
            end)
    (ChatRoute.processedModelMessages msgs).
Proof.
  unfold ChatRoute.processedModelMessages. split.
  - rewrite map_map. apply map_ext. intros msg. apply processMessage_idempotent.
  - apply Forall_forall. intros msg' Hin. apply in_map_iff in Hin.
    destruct Hin as [msg [<- _]]. unfold ChatRoute.processMessage.
    destruct (ChatRoute.content msg) as [s|ps] eqn:Hc.
    + now rewrite Hc.
    + cbn [ChatRoute.content]. apply Forall_forall. intros p Hp.
      apply in_map_iff in Hp. destruct Hp as [q [<- _]]. apply processPart_settled.
Qed.

Lemma processMessagePart_idempotent (part : ChatRoute.UiPart) :
  ChatRoute.processMessagePart (ChatRoute.processMessagePart part)
  = ChatRoute.processMessagePart part.
Proof.
  destruct part as [t|u n mt [e|]]; try reflexivity.
  cbn [ChatRoute.processMessagePart].
  destruct (truthy e) eqn:E; [reflexivity|].
  cbn [ChatRoute.processMessagePart]. now rewrite E.
Qed.

(** X19. The pass over the parts of the incoming message keeps the
    number of parts and every text part; it leaves no file part that
    carries a non-empty extracted text, and a second run changes
    nothing. *)
Theorem processedMessageParts_converts_documents
  (parts : list ChatRoute.UiPart) :
  length (ChatRoute.processedMessageParts parts) = length parts /\
  (forall i text, nth_error parts i = Some (ChatRoute.UiText text) ->
     nth_error (ChatRoute.processedMessageParts parts) i
     = Some (ChatRoute.UiText text)) /\
  (forall url name mediaType extracted,
     In (ChatRoute.UiFile url name mediaType (Some extracted))
       (ChatRoute.processedMessageParts parts) ->
     extracted = []) /\
  ChatRoute.processedMessageParts (ChatRoute.processedMessageParts parts)
  = ChatRoute.processedMessageParts parts.
Proof.
  unfold ChatRoute.processedMessageParts.
  split; [apply length_map|]. split.
  { intros i text H. now rewrite (map_nth_error _ _ _ H). }
  split.
  { intros url name mediaType extracted Hin. apply in_map_iff in Hin.
    destruct Hin as [p [Hp _]].
    destruct p as [t|u n mt [e|]]; cbn [ChatRoute.processMessagePart] in Hp;
      try discriminate.
    destruct (truthy e) eqn:E; [discriminate|]. inversion Hp; subst.
    destruct extracted; [reflexivity | discriminate]. }
  rewrite map_map. apply map_ext. intros p. apply processMessagePart_idempotent.
Qed.

Lemma processedMessageParts_converts_documents_witness :
  nth_error
    (ChatRoute.processedMessageParts
       [ChatRoute.UiFile (lit "/uploads/a.pdf") (lit "a.pdf")
          (lit "application/pdf") (Some (lit "page one"));
        ChatRoute.UiText (lit "summarize")]) 1
  = Some (ChatRoute.UiText (lit "summarize")).
Proof.
  apply (processedMessageParts_converts_documents
           [ChatRoute.UiFile (lit "/uploads/a.pdf") (lit "a.pdf")
              (lit "application/pdf") (Some (lit "page one"));
            ChatRoute.UiText (lit "summarize")]).
  reflexivity.
Defined.

Lemma mappedParts_documents
  (imageHandling : MultimodalInput.Attachment -> option MultimodalInput.Part) :
  forall attachments,
    forallb MultimodalInput.is_document attachments = true ->
    MultimodalInput.mappedParts imageHandling attachments
    = map (fun a => MultimodalInput.TextPart
                      (lit "[File: " ++ MultimodalInput.name a ++ lit "]"
                       ++ nl ++ nl
                       ++ firstn 2000 (MultimodalInput.text_or_empty a)))
        attachments.
Proof.
  unfold MultimodalInput.mappedParts.
  induction attachments as [|a attachments IH]; intros H; [reflexivity|].
  cbn [forallb] in H. apply andb_true_iff in H. destruct H as [Ha Hrest].
  cbn [map]. rewrite (mapAttachment_document imageHandling a Ha).
  cbn [MultimodalInput.filter_defined]. now rewrite IH.
Qed.

(** X20. For a message whose attachments are all PDF or text files the
    conversion of the route has nothing to convert: [submitForm] has sent
    each of them as a text part already, cut to 2000 characters.  However
    the file parts of a client arrive at the route, the parts of such a
    message leave the pass as the text parts the client built, followed by
    the input. *)
Theorem processedMessageParts_finds_documents_converted
  (imageHandling : MultimodalInput.Attachment -> option MultimodalInput.Part)
  (arrives : MultimodalInput.Part -> ChatRoute.UiPart)
  (attachments : list MultimodalInput.Attachment) (input : jsstring) :
  (forall text,
     arrives (MultimodalInput.TextPart text) = ChatRoute.UiText text) ->
  forallb MultimodalInput.is_document attachments = true ->
  ChatRoute.processedMessageParts
    (map arrives
       (MultimodalInput.parts
          (MultimodalInput.submitForm imageHandling attachments input)))
  = map (fun a => ChatRoute.UiText
                    (lit "[File: " ++ MultimodalInput.name a ++ lit "]"
                     ++ nl ++ nl
                     ++ firstn 2000 (MultimodalInput.text_or_empty a)))
      attachments
    ++ [ChatRoute.UiText input].
Proof.
  intros Harrives Hdocs.
  unfold MultimodalInput.submitForm, ChatRoute.processedMessageParts.
  cbn [MultimodalInput.parts].
  rewrite (mappedParts_documents imageHandling attachments Hdocs).
  rewrite !map_app, !map_map. cbn [map].
  rewrite !Harrives. cbn [ChatRoute.processMessagePart]. f_equal.
  apply map_ext. intros a. now rewrite Harrives.
Qed.

Lemma processedMessageParts_finds_documents_converted_witness :
  ChatRoute.processedMessageParts
    (map ChatRoute.received
       (MultimodalInput.parts
          (MultimodalInput.submitForm MultimodalInput.imageAsFile
             [long_pdf] (lit "summarize"))))
  = [ChatRoute.UiText (lit "[File: report.pdf]" ++ nl ++ nl ++ repeat 120%N 2000);
     ChatRoute.UiText (lit "summarize")].
Proof.
  apply (@processedMessageParts_finds_documents_converted
           MultimodalInput.imageAsFile ChatRoute.received [long_pdf]
           (lit "summarize")).
  - reflexivity.
  - reflexivity.
Defined.

(** ** The upload route *)

Lemma existsb_jseqb (t : jsstring) (l : list jsstring) :
  existsb (jseqb t) l = true <-> In t l.
Proof.
  rewrite existsb_exists. split.
  - intros [x [Hx He]]. apply jseqb_eq in He. now subst.
  - intros H. exists t. split; [assumption | apply jseqb_refl].
Qed.

Lemma fileSchemaErrors_nil (file : UploadRoute.File) :
  UploadRoute.fileSchemaErrors file = [] <->
  (UploadRoute.size file <= UploadRoute.maxSize)%N /\
  In (UploadRoute.type file) UploadRoute.allowedTypes.
Proof.
  unfold UploadRoute.fileSchemaErrors. rewrite <- existsb_jseqb.
  destruct (N.leb_spec (UploadRoute.size file) UploadRoute.maxSize);
    destruct (existsb _ UploadRoute.allowedTypes); cbn [app];
    split; try discriminate; try tauto; intros [? ?]; try discriminate; lia.
Qed.

(** X21. Whatever the handler writes under the uploads directory is the
    unchanged content of a file that passed both checks of [FileSchema],
    stored once, under the drawn name followed by a dot and the extension
    of the uploaded name. *)
Theorem POST_writes_only_validated_files (env : UploadRoute.Env)
  (request : UploadRoute.Request) (path : jsstring) (data : Buffer) :
  In (path, data) (snd (UploadRoute.POST env request)) ->
  exists file,
    UploadRoute.formData request = Ok (Some file) /\
    data = UploadRoute.bytes file /\
    (UploadRoute.size file <= UploadRoute.maxSize)%N /\
    In (UploadRoute.type file) UploadRoute.allowedTypes /\
    path = UploadRoute.randomUUID env ++ lit "."
           ++ UploadRoute.fileExtension (UploadRoute.name file) /\
    snd (UploadRoute.POST env request) = [(path, data)].
Proof.
  unfold UploadRoute.POST.
  destruct (UploadRoute.hasBody request); cbn [negb]; [|intros []].
  destruct (UploadRoute.formData request) as [[file|]|msg]; try (intros []).
  destruct (UploadRoute.fileSchemaErrors file) as [|e errors] eqn:Hschema;
    [|intros []].
  apply fileSchemaErrors_nil in Hschema. destruct Hschema as [Hsize Htype].
  cbv zeta.
  destruct (UploadRoute.writeFile env _ (UploadRoute.bytes file)); [|intros []].
  destruct (UploadRoute.extractByType env file); cbn [snd];
    (intros [Heq | []]; inversion Heq; subst; exists file; repeat split; assumption).
Qed.

Lemma POST_writes_only_validated_files_witness :
  exists file,
    UploadRoute.formData (upload tiny_png) = Ok (Some file) /\
    [x89; x50; x4e; x47] = UploadRoute.bytes file /\
    (UploadRoute.size file <= UploadRoute.maxSize)%N /\
    In (UploadRoute.type file) UploadRoute.allowedTypes /\
    lit "3b241101-e2bb-4255-8caf-4136c566a962.png"
    = UploadRoute.randomUUID upload_env ++ lit "."
      ++ UploadRoute.fileExtension (UploadRoute.name file) /\
    snd (UploadRoute.POST upload_env (upload tiny_png))
    = [(lit "3b241101-e2bb-4255-8caf-4136c566a962.png", [x89; x50; x4e; x47])].
Proof.
  apply (@POST_writes_only_validated_files upload_env (upload tiny_png)
           (lit "3b241101-e2bb-4255-8caf-4136c566a962.png")
           [x89; x50; x4e; x47]).
  left. reflexivity.
Defined.

Lemma extractByType_status (env : UploadRoute.Env) (file : UploadRoute.File)
  (response : UploadRoute.Response) :
  UploadRoute.extractByType env file = Throw response ->
  UploadRoute.status response = 500 /\
  exists details,
    UploadRoute.body response
    = UploadRoute.ErrorJson (lit "Failed to extract text from PDF") details.
Proof.
  unfold UploadRoute.extractByType.
  destruct (jseqb (UploadRoute.type file) (lit "application/pdf")).
  - destruct (extractTextFromPDF _ _); [discriminate|].
    intros H; inversion H. split; [reflexivity|]. eexists. reflexivity.
  - destruct (jseqb (UploadRoute.type file) (lit "text/plain")); discriminate.
Qed.

(** X22. An upload that carries a file is answered with the status 400
    exactly when the file is larger than 10 MiB or its type is not one of
    the four allowed ones, and then nothing has been written. *)
Theorem POST_status_400 (env : UploadRoute.Env) (file : UploadRoute.File) :
  (UploadRoute.status (fst (UploadRoute.POST env (upload file))) = 400 <->
   (UploadRoute.maxSize < UploadRoute.size file)%N \/
   ~ In (UploadRoute.type file) UploadRoute.allowedTypes) /\
  (UploadRoute.status (fst (UploadRoute.POST env (upload file))) = 400 ->
   snd (UploadRoute.POST env (upload file)) = []).
Proof.
  unfold UploadRoute.POST, upload. cbn [UploadRoute.hasBody UploadRoute.formData negb].
  pose proof (fileSchemaErrors_nil file) as Hnil.
  destruct (UploadRoute.fileSchemaErrors file) as [|e errors].
  - assert (Hok : (UploadRoute.size file <= UploadRoute.maxSize)%N /\
                  In (UploadRoute.type file) UploadRoute.allowedTypes)
      by now apply Hnil.
    cbv zeta.
    destruct (UploadRoute.writeFile env _ (UploadRoute.bytes file)).
    + destruct (UploadRoute.extractByType env file) as [extracted|response] eqn:Hex.
      * cbn [fst snd UploadRoute.status]. split; [|discriminate].
        split; [discriminate|]. intros [H | H]; [lia | tauto].
      * destruct (extractByType_status _ _ Hex) as [Hst _].
        cbn [fst snd]. rewrite Hst. split; [|discriminate].
        split; [discriminate|]. intros [H | H]; [lia | tauto].
    + cbn [fst snd UploadRoute.failure UploadRoute.status]. split; [|discriminate].
      split; [discriminate|]. intros [H | H]; [lia | tauto].
  - cbn [fst snd UploadRoute.failure UploadRoute.status].
    split; [|reflexivity]. split; [|reflexivity]. intros _.
    destruct (N.ltb_spec UploadRoute.maxSize (UploadRoute.size file)) as [Hlt|Hge];
      [now left|].
    right. intros Hin. assert (e :: errors = []) by (apply Hnil; tauto).
    discriminate.
Qed.

Lemma POST_status_400_witness :
  UploadRoute.status (fst (UploadRoute.POST upload_env (upload tiny_gif))) = 400 /\
  snd (UploadRoute.POST upload_env (upload tiny_gif)) = [].
Proof.
  split; [reflexivity|].
  apply (@POST_status_400 upload_env tiny_gif). reflexivity.
Defined.

(** X23. A PDF that passes the checks but cannot be parsed is answered
    with the status 500 and the error "Failed to extract text from PDF",
    the details being the message [extractTextFromPDF] chose; the file has
    been written before the extraction and stays on the disk. *)
Theorem POST_unreadable_pdf_stays_on_disk (env : UploadRoute.Env)
  (file : UploadRoute.File) (error : JsError) :
  let stored := UploadRoute.randomUUID env ++ lit "."
                ++ UploadRoute.fileExtension (UploadRoute.name file) in
  UploadRoute.type file = lit "application/pdf" ->
  (UploadRoute.size file <= UploadRoute.maxSize)%N ->
  UploadRoute.writeFile env stored (UploadRoute.bytes file) = Ok tt ->
  UploadRoute.pdfParse env (UploadRoute.bytes file) = Throw error ->
  UploadRoute.POST env (upload file)
  = (UploadRoute.failure 500 (lit "Failed to extract text from PDF")
       (Some (errorMessage error)),
     [(stored, UploadRoute.bytes file)]).
Proof.
  intros stored Htype Hsize Hwrite Hparse.
  unfold UploadRoute.POST, upload. cbn [UploadRoute.hasBody UploadRoute.formData negb].
  assert (Hschema : UploadRoute.fileSchemaErrors file = []).
  { apply fileSchemaErrors_nil. split; [assumption|]. rewrite Htype. left. reflexivity. }
  rewrite Hschema. cbv zeta. fold stored. rewrite Hwrite.
  unfold UploadRoute.extractByType, extractTextFromPDF.
  rewrite Htype, Hparse. reflexivity.
Qed.

Lemma POST_unreadable_pdf_stays_on_disk_witness :
  UploadRoute.POST upload_env (upload broken_pdf)
  = (UploadRoute.failure 500 (lit "Failed to extract text from PDF")
       (Some (lit "Invalid or corrupted PDF file")),
     [(lit "3b241101-e2bb-4255-8caf-4136c566a962.pdf", [x00; x01])]).
Proof.
  apply (@POST_unreadable_pdf_stays_on_disk upload_env broken_pdf
           {| message := Some (lit "Invalid PDF structure") |}).
  - reflexivity.
  - vm_compute. discriminate.
  - reflexivity.
  - reflexivity.
Defined.

(** X24. The handler never answers "Failed to read text file": the
    branch that catches a failure of [extractTextFromTextFile] cannot be
    taken, whatever the request, the disk and the parser do. *)
Theorem POST_never_fails_to_read_text (env : UploadRoute.Env)
  (request : UploadRoute.Request) :
  answers (fst (UploadRoute.POST env request)) (lit "Failed to read text file")
  = false.
Proof.
  unfold answers, UploadRoute.POST.
  destruct (UploadRoute.hasBody request); cbn [negb]; [|reflexivity].
  destruct (UploadRoute.formData request) as [[file|]|msg]; try reflexivity.
  unfold UploadRoute.fileSchemaErrors.
  destruct (N.leb (UploadRoute.size file) UploadRoute.maxSize);
    destruct (existsb _ UploadRoute.allowedTypes); cbn [app]; try reflexivity.
  cbv zeta.
  destruct (UploadRoute.writeFile env _ (UploadRoute.bytes file)); [|reflexivity].
  destruct (UploadRoute.extractByType env file) as [extracted|response] eqn:Hex;
    [reflexivity|].
  destruct (extractByType_status _ _ Hex) as [_ [d Hbody]].
  cbn [fst]. rewrite Hbody. reflexivity.
Qed.

Lemma dotless_no_parent (s : jsstring) :
  dotless s = true -> includes s (lit "..") = false.
Proof.
  induction s as [|c s IH]; intros H; [reflexivity|].
  cbn [dotless forallb] in H. apply andb_true_iff in H. destruct H as [Hc Hs].
  apply negb_true_iff in Hc.
  cbn [includes]. change (lit "..") with [46%N; 46%N]. cbn [startsWith].
  rewrite N.eqb_sym, Hc. cbn [andb]. now apply IH.
Qed.

Lemma dotless_head (s : jsstring) :
  dotless s = true -> startsWith s [46%N] = false.
Proof.
  destruct s as [|c s]; [reflexivity|]. cbn [dotless forallb]. intros H.
  apply andb_true_iff in H. destruct H as [Hc _]. apply negb_true_iff in Hc.
  cbn [startsWith]. now rewrite N.eqb_sym, Hc.
Qed.

Lemma one_dot_no_parent (a b : jsstring) :
  dotless a = true -> dotless b = true ->
  includes (a ++ lit "." ++ b) (lit "..") = false.
Proof.
  intros Ha Hb. induction a as [|c a IH].
  - change ([] ++ lit "." ++ b) with (46%N :: b). cbn [includes].
    change (lit "..") with [46%N; 46%N]. cbn [startsWith N.eqb Pos.eqb andb].
    rewrite (dotless_head _ Hb). now apply dotless_no_parent.
  - cbn [dotless forallb] in Ha. apply andb_true_iff in Ha. destruct Ha as [Hc Ha].
    apply negb_true_iff in Hc. cbn [app includes].
    change (lit "..") with [46%N; 46%N]. cbn [startsWith].
    rewrite N.eqb_sym, Hc. cbn [andb]. now apply IH.
Qed.

Lemma takeWhile_all (f : N -> bool) (s : jsstring) :
  forallb f (takeWhile f s) = true.
Proof.
  induction s as [|c s IH]; [reflexivity|]. cbn [takeWhile].
  destruct (f c) eqn:E; [|reflexivity]. cbn [forallb]. now rewrite E, IH.
Qed.

Lemma fileExtension_dotless (filename : jsstring) :
  dotless (UploadRoute.fileExtension filename) = true.
Proof.
  unfold UploadRoute.fileExtension, dotless. apply forallb_forall.
  intros c Hc. apply in_rev in Hc. revert c Hc. apply forallb_forall.
  apply takeWhile_all.
Qed.

(** X25. The name a file is stored under holds one dot only, the one
    before the extension, when the drawn name has none: it has no ".."
    and so cannot point out of the uploads directory; the extension is the
    end of the uploaded name. *)
Theorem POST_stored_name (env : UploadRoute.Env) (request : UploadRoute.Request)
  (path : jsstring) (data : Buffer) :
  dotless (UploadRoute.randomUUID env) = true ->
  In (path, data) (snd (UploadRoute.POST env request)) ->
  includes path (lit "..") = false /\
  exists file extension,
    UploadRoute.formData request = Ok (Some file) /\
    path = UploadRoute.randomUUID env ++ lit "." ++ extension /\
    dotless extension = true /\
    endsWith (UploadRoute.name file) extension = true.
Proof.
  intros Hid Hin.
  assert (Hpath : exists file,
             UploadRoute.formData request = Ok (Some file) /\
             path = UploadRoute.randomUUID env ++ lit "."
                    ++ UploadRoute.fileExtension (UploadRoute.name file)).
  { revert Hin. unfold UploadRoute.POST.
    destruct (UploadRoute.hasBody request); cbn [negb]; [|intros []].
    destruct (UploadRoute.formData request) as [[file|]|msg]; try (intros []).
    destruct (UploadRoute.fileSchemaErrors file); [|intros []]. cbv zeta.
    destruct (UploadRoute.writeFile env _ (UploadRoute.bytes file)); [|intros []].
    destruct (UploadRoute.extractByType env file); cbn [snd];
      (intros [Heq | []]; inversion Heq; subst; exists file; split; reflexivity). }
  destruct Hpath as [file [Hform ->]].
  pose proof (fileExtension_dotless (UploadRoute.name file)) as Hext.
  split; [now apply one_dot_no_parent|].
  exists file, (UploadRoute.fileExtension (UploadRoute.name file)).
  repeat split; try assumption.
  unfold endsWith, UploadRoute.fileExtension. rewrite rev_involutive.
  destruct (takeWhile_split (fun c => negb (N.eqb c 46))
              (rev (UploadRoute.name file))) as [rest [Hrest _]].
  rewrite Hrest at 1. apply startsWith_app.
Qed.

Lemma POST_stored_name_witness :
  includes (lit "3b241101-e2bb-4255-8caf-4136c566a962.png") (lit "..") = false /\
  exists file extension,
    UploadRoute.formData (upload tiny_png) = Ok (Some file) /\
    lit "3b241101-e2bb-4255-8caf-4136c566a962.png"
    = UploadRoute.randomUUID upload_env ++ lit "." ++ extension /\
    dotless extension = true /\
    endsWith (UploadRoute.name file) extension = true.
Proof.
  apply (@POST_stored_name upload_env (upload tiny_png)
           (lit "3b241101-e2bb-4255-8caf-4136c566a962.png")
           [x89; x50; x4e; x47]).
  - reflexivity.
  - left. reflexivity.
Defined.

(** ** The media types, from the upload to the chat *)

(** X26. The upload route, the schema of the chat route and the preview
    agree on the media types: a type is accepted by the upload exactly when
    the schema of a file part accepts it, and each accepted type has a tile
    of its own kind in the preview, never the generic one. *)
Theorem media_types_agree (mediaType : jsstring) :
  existsb (jseqb mediaType) UploadRoute.allowedTypes
  = existsb (jseqb mediaType) ChatSchema.mediaTypes /\
  (existsb (jseqb mediaType) UploadRoute.allowedTypes = true ->
   In (PreviewAttachment.tile (Some mediaType))
     [PreviewAttachment.ImageTile; PreviewAttachment.PdfTile;
      PreviewAttachment.TxtTile]).
Proof.
  split.
  - unfold UploadRoute.allowedTypes, ChatSchema.mediaTypes. cbn [existsb].
    destruct (jseqb mediaType (lit "application/pdf"));
      destruct (jseqb mediaType (lit "text/plain"));
      destruct (jseqb mediaType (lit "image/png"));
      destruct (jseqb mediaType (lit "image/jpeg")); reflexivity.
  - intros H. apply existsb_jseqb in H.
    destruct H as [<- | [<- | [<- | [<- | []]]]]; cbn; tauto.
Qed.

Lemma media_types_agree_witness :
  In (PreviewAttachment.tile (Some (lit "text/plain")))
    [PreviewAttachment.ImageTile; PreviewAttachment.PdfTile;
     PreviewAttachment.TxtTile].
Proof.
  apply (media_types_agree (lit "text/plain")). reflexivity.
Defined.

(** X27. A document part built by [submitForm] is accepted by the
    schema of the chat route whatever the length of the extracted text,
    when the name of the file has at most 100 characters: the part has
    between 10 and 2110 characters. *)
Theorem document_part_passes_the_schema
  (imageHandling : MultimodalInput.Attachment -> option MultimodalInput.Part)
  (attachment : MultimodalInput.Attachment) :
  MultimodalInput.is_document attachment = true ->
  length (MultimodalInput.name attachment) <= 100 ->
  exists text,
    MultimodalInput.mapAttachment imageHandling attachment
    = Some (MultimodalInput.TextPart text) /\
    10 <= length text <= 2110 /\
    ChatSchema.partSchema (ChatRoute.received (MultimodalInput.TextPart text))
    = true.
Proof.
  intros Hdoc Hname. eexists. split; [now apply mapAttachment_document|].
  assert (Hlen : 10 <= length (lit "[File: " ++ MultimodalInput.name attachment
                                 ++ lit "]" ++ nl ++ nl
                                 ++ firstn 2000 (MultimodalInput.text_or_empty attachment))
                 <= 2110).
  { rewrite !length_app, length_firstn. cbn [lit length nl map list_ascii_of_string].
    pose proof (Nat.le_min_l 2000 (length (MultimodalInput.text_or_empty attachment))).
    lia. }
  split; [exact Hlen|].
  cbn [ChatRoute.received ChatSchema.partSchema].
  unfold ChatSchema.textPartSchema, ChatSchema.string_between.
  apply andb_true_iff. split; apply N.leb_le; lia.
Qed.

Lemma document_part_passes_the_schema_witness :
  exists text,
    MultimodalInput.mapAttachment MultimodalInput.imageAsFile short_name_txt
    = Some (MultimodalInput.TextPart text) /\
    10 <= length text <= 2110 /\
    ChatSchema.partSchema (ChatRoute.received (MultimodalInput.TextPart text))
    = true.
Proof.
  apply (@document_part_passes_the_schema MultimodalInput.imageAsFile
           short_name_txt).
  - reflexivity.
  - cbn. lia.
Defined.

(** X28. A message sent with an empty input is refused by the schema of
    the chat route, whatever is attached: [submitForm] always appends the
    text part of the input, and the schema wants a text of one character
    at least. *)
Theorem empty_input_is_refused
  (imageHandling : MultimodalInput.Attachment -> option MultimodalInput.Part)
  (attachments : list MultimodalInput.Attachment) :
  ChatSchema.partsSchema
    (map ChatRoute.received
       (MultimodalInput.parts
          (MultimodalInput.submitForm imageHandling attachments [])))
  = false.
Proof.
  unfold ChatSchema.partsSchema, MultimodalInput.submitForm.
  cbn [MultimodalInput.parts]. rewrite map_app, forallb_app.
  cbn [map forallb ChatRoute.received ChatSchema.partSchema].
  apply andb_false_r.
Qed.
